(** * Fixed-income portfolio monitor: valuation, risk metrics, aggregation
      and mandate surveillance of [fixed_income_monitor.py].

    Numbers.  The script computes with IEEE doubles.  The development
    follows the finite values exactly, as rationals [Q]: rounding error of
    the binary format, overflow and underflow are not part of the model.
    A computation that divides by zero yields no finite number (Python
    floats raise [ZeroDivisionError], numpy arrays and pandas columns
    produce [inf] or [nan]); the model returns [None] there.

    The float power [x ** e] is taken as a parameter [pow] of the
    valuation section, because a fractional power of a rational is not a
    rational.  It stands for the real power on bases and exponents where
    Python returns a finite float. *)

From Stdlib Require Import ZArith QArith Qround Qabs Qpower.
From Stdlib Require Import List String Bool Lia Lqa Permutation.
From Stdlib Require Import Sorting.Sorted.
From Stdlib Require OrderedTypeEx.
Import ListNotations.

Open Scope Q_scope.

(** ** Python and numpy primitives *)

(** [int(x)] on a float: truncation toward zero. *)
Definition py_int (x : Q) : Z := Z.quot (Qnum x) (Zpos (Qden x)).

(** [round(x)] with one argument: nearest integer, ties to the even one. *)
Definition round_half_even (x : Q) : Z :=
  let f := Qfloor x in
  match Qcompare (x - inject_Z f) (1 # 2) with
  | Lt => f
  | Gt => (f + 1)%Z
  | Eq => if Z.even f then f else (f + 1)%Z
  end.

Fixpoint pow10 (d : nat) : positive :=
  match d with
  | O => 1%positive
  | S k => (10 * pow10 k)%positive
  end.

(** [round(x, ndigits)], also [Series.round(ndigits)] and [np.round]:
    ties go to the even last digit. *)
Definition round (x : Q) (ndigits : nat) : Q :=
  round_half_even (x * inject_Z (Zpos (pow10 ndigits))) # pow10 ndigits.

(** [range(lo, hi)] and [np.arange(lo, hi)] over integers. *)
Definition range (lo hi : Z) : list Z :=
  map (fun i => (lo + Z.of_nat i)%Z) (seq 0 (Z.to_nat (hi - lo))).

(** [sum(xs)]: starts from 0 and adds from the left. *)
Definition sum (xs : list Q) : Q := fold_left Qplus xs 0.

(** Division of finite floats; [None] when the divisor is zero. *)
Definition div (x y : Q) : option Q :=
  if Qeq_bool y 0 then None else Some (x / y).

Definition bind {A B : Type} (m : option A) (f : A -> option B) : option B :=
  match m with
  | Some a => f a
  | None => None
  end.

Notation "x <- m ;; f" := (bind m (fun x => f))
  (at level 61, m at next level, right associativity).

(** A list comprehension whose body may fail: elements are evaluated in
    order and the first failure aborts the whole list. *)
Fixpoint traverse {A B : Type} (f : A -> option B) (xs : list A)
  : option (list B) :=
  match xs with
  | [] => Some []
  | x :: xs' => y <- f x ;; ys <- traverse f xs' ;; Some (y :: ys)
  end.

(** Mathematical summation  f(1) + ... + f(n). *)
Fixpoint bigsum (n : nat) (f : Z -> Q) : Q :=
  match n with
  | O => 0
  | S k => bigsum k f + f (Z.of_nat (S k))
  end.

(** ** The holdings table *)

(** One row of [df] once the [years_to_maturity] column is in place.  The
    maturity date only enters through that column. *)
Record Row := {
  bond_id : string;
  issuer : string;
  face_value : Q;
  coupon_rate : Q;
  ytm : Q;
  credit_rating : string;
  sector : string;
  quantity : Z;
  years_to_maturity : Q
}.

(** ** Module 1 and 2: per-bond valuation and risk metrics *)

Section Valuation.

Variable pow : Q -> Q -> Q.

(** The lambda behind [df["price_per_bond"]]. *)
Definition price_per_bond (row : Row) : option Q :=
  coupons <- traverse
    (fun t => div (coupon_rate row * face_value row)
                  (pow (1 + ytm row) (inject_Z t)))
    (range 1 (py_int (years_to_maturity row) + 1)) ;;
  principal <- div (face_value row)
                   (pow (1 + ytm row) (years_to_maturity row)) ;;
  Some (round (sum coupons + principal) 2).

(** All discount factors used by the price are non-zero. *)
Definition discountable (row : Row) : bool :=
  forallb (fun t => negb (Qeq_bool (pow (1 + ytm row) (inject_Z t)) 0))
          (range 1 (py_int (years_to_maturity row) + 1))
  && negb (Qeq_bool (pow (1 + ytm row) (years_to_maturity row)) 0).

(** The price as the valuation contract words it. *)
Definition price_formula (F c y m : Q) : Q :=
  round (bigsum (Z.to_nat (Qfloor m)) (fun t => (c * F) / pow (1 + y) (inject_Z t))
         + F / pow (1 + y) m) 2.

(** *** Module 2: duration *)

(** [np.full(n, v)]. *)
Definition np_full (n : Z) (v : Q) : list Q := repeat v (Z.to_nat n).

(** [a[-1] += v].  The array is never empty where the script does this
    (it has [periods >= 1] entries). *)
Fixpoint iadd_last (a : list Q) (v : Q) : list Q :=
  match a with
  | [] => []
  | [x] => [x + v]
  | x :: a' => x :: iadd_last a' v
  end.

(** Element-wise [a / b] of two arrays. *)
Definition np_divide (a b : list Q) : option (list Q) :=
  traverse (fun xy => div (fst xy) (snd xy)) (combine a b).

(** Element-wise [times * a] of an integer array and a float array. *)
Definition np_multiply (times : list Z) (a : list Q) : list Q :=
  map (fun tx => inject_Z (fst tx) * snd tx) (combine times a).

Definition macaulay_duration (coupon_rate face_value ytm years_to_maturity : Q)
  : option Q :=
  let periods := Z.max 1 (round_half_even years_to_maturity) in
  let coupon := coupon_rate * face_value in
  let times := range 1 (periods + 1) in
  let cash_flows := iadd_last (np_full periods coupon) face_value in
  let discount_factors := map (fun t => pow (1 + ytm) (inject_Z t)) times in
  pv_cash_flows <- np_divide cash_flows discount_factors ;;
  let total_pv := sum pv_cash_flows in
  mac_duration <- div (sum (np_multiply times pv_cash_flows)) total_pv ;;
  Some (round mac_duration 4).

Definition modified_duration (mac_dur ytm : Q) : option Q :=
  q <- div mac_dur (1 + ytm) ;;
  Some (round q 4).

(** The two duration columns of a row. *)
Definition macaulay_duration_of (row : Row) : option Q :=
  macaulay_duration (coupon_rate row) (face_value row) (ytm row)
                    (years_to_maturity row).

Definition modified_duration_of (row : Row) : option Q :=
  mac <- macaulay_duration_of row ;;
  modified_duration mac (ytm row).

(** [df["market_value"]] of a row. *)
Definition market_value_of (row : Row) : option Q :=
  price <- price_per_bond row ;;
  Some (price * inject_Z (quantity row)).

(** [df["dv01"]]: market value x modified duration x one basis point. *)
Definition dv01 (market_value modified_duration : Q) : Q :=
  market_value * modified_duration * (1 # 10000).

Definition dv01_of (row : Row) : option Q :=
  mv <- market_value_of row ;;
  md <- modified_duration_of row ;;
  Some (dv01 mv md).

(** Macaulay duration as the risk-metrics contract words it: cash flow
    [c*F] at every period, [F] added at period [N], each discounted by
    [(1+y)^t]; time-weighted present value over present value. *)
Definition cash_flow (c F : Q) (N t : Z) : Q :=
  if Z.eqb t N then c * F + F else c * F.

Definition present_value (c F y : Q) (N t : Z) : Q :=
  cash_flow c F N t / pow (1 + y) (inject_Z t).

Definition periods_of (m : Q) : Z := Z.max 1 (round_half_even m).

(** The duration is a finite number: no discount factor is zero and the
    total present value is not zero. *)
Definition finite_duration (c F y m : Q) : bool :=
  let N := periods_of m in
  forallb (fun t => negb (Qeq_bool (pow (1 + y) (inject_Z t)) 0))
          (range 1 (N + 1))
  && negb (Qeq_bool (bigsum (Z.to_nat N) (present_value c F y N)) 0).

End Valuation.

(** A power function that is exact on whole-number exponents, used to run
    the model on bonds whose exponents are whole years. *)
Definition pow_whole (x e : Q) : Q := Qpower x (py_int e).

(** ** Module 1 and 2: aggregation *)

Definition total_portfolio_value (market_value : list Q) : Q :=
  sum market_value.

(** [df["weight"] = round(df["market_value"] / total_portfolio_value, 4)]. *)
Definition weight (market_value : list Q) : option (list Q) :=
  let total := total_portfolio_value market_value in
  traverse (fun mv => q <- div mv total ;; Some (round q 4)) market_value.

(** A row of [df] with the derived columns the later modules read. *)
Record Position := {
  p_row : Row;
  p_market_value : Q;
  p_weight : Q;
  p_modified_duration : Q;
  p_dv01 : Q
}.

Definition DataFrame := list Position.

Definition weighted (metric : Position -> Q) (df : DataFrame) : Q :=
  sum (map (fun p => metric p * p_weight p) df).

Definition portfolio_duration (df : DataFrame) : Q :=
  weighted p_modified_duration df.

Definition portfolio_ytm (df : DataFrame) : Q :=
  weighted (fun p => ytm (p_row p)) df.

(** [groupby(key)[...].sum()]: one entry per distinct key, keys in
    ascending order, each holding the sum of its rows in row order. *)
Fixpoint group_add (k : string) (v : Q) (g : list (string * Q))
  : list (string * Q) :=
  match g with
  | [] => [(k, v)]
  | (k', s) :: g' =>
      match String.compare k k' with
      | Eq => (k', s + v) :: g'
      | Lt => (k, v) :: (k', s) :: g'
      | Gt => (k', s) :: group_add k v g'
      end
  end.

Definition group_step (g : list (string * Q)) (kv : string * Q)
  : list (string * Q) :=
  group_add (fst kv) (snd kv) g.

Definition groupby_sum (rows : list (string * Q)) : list (string * Q) :=
  fold_left group_step rows [].

(** Group keys in strictly ascending order. *)
Definition slt (a b : string) : Prop := String.compare a b = Lt.

(** [sort_values("allocation", ascending=False)].  The order among equal
    allocations is not fixed by the script (pandas sorts with its default
    algorithm); here equal allocations keep their group order. *)
Fixpoint insert_desc (r : string * Q) (t : list (string * Q))
  : list (string * Q) :=
  match t with
  | [] => [r]
  | r' :: t' =>
      if Qle_bool (snd r') (snd r) then r :: r' :: t'
      else r' :: insert_desc r t'
  end.

Definition sort_values_desc (t : list (string * Q)) : list (string * Q) :=
  fold_right insert_desc [] t.

(** [sector_allocation], read off the [sector] and [market_value] columns
    of [df], one pair per row. *)
Definition sector_allocation (df : list (string * Q))
  : option (list (string * Q)) :=
  let total := total_portfolio_value (map snd df) in
  grouped <- traverse
    (fun kv => q <- div (snd kv) total ;; Some (fst kv, round q 4))
    (groupby_sum df) ;;
  Some (sort_values_desc grouped).

(** Market value held in one sector. *)
Definition sector_value (s : string) (df : list (string * Q)) : Q :=
  sum (map snd (filter (fun kv => String.eqb (fst kv) s) df)).

(** Allocations in descending order. *)
Definition descending (t : list (string * Q)) : Prop :=
  Sorted (fun a b => snd b <= snd a) t.

(** ** Module 3: surveillance *)

Record Limits := {
  max_portfolio_duration : Q;
  min_portfolio_duration : Q;
  max_single_position_weight : Q;
  max_sector_concentration : Q;
  min_credit_quality_aaa_aa : Q;
  max_dv01_per_position : Q;
  min_ytm : Q
}.

Definition MANDATE_LIMITS : Limits := {|
  max_portfolio_duration := 5;
  min_portfolio_duration := 2;
  max_single_position_weight := 35 # 100;
  max_sector_concentration := 50 # 100;
  min_credit_quality_aaa_aa := 60 # 100;
  max_dv01_per_position := 6000;
  min_ytm := 30 # 1000
|}.

(** The message of a finding: which template was chosen and the numbers it
    is filled with.  The rendering of the numbers as text is not modelled. *)
Inductive Detail :=
| ExceedsMax (value limit : Q)
| BelowMin (value limit : Q)
| AboveMin (value limit : Q)
| WithinRange (value lo hi : Q)
| WithinLimit (value : Q).

Record Flag := {
  check : string;
  status : string;
  detail : Detail
}.

Definition BREACH : string := "⚠ BREACH".
Definition PASS : string := "✓ PASS".

Definition Qgtb (x y : Q) : bool := negb (Qle_bool x y).
Definition Qltb (x y : Q) : bool := negb (Qle_bool y x).

(** The two values a finding's status can take. *)
Definition known_status (f : Flag) : Prop :=
  status f = BREACH \/ status f = PASS.

(** [flags.append(f)]. *)
Definition append (flags : list Flag) (f : Flag) : list Flag := flags ++ [f].

Section Surveillance.

Variable L : Limits.
Variable df : DataFrame.
Variable sector_table : list (string * Q).

Definition check_portfolio_duration (flags : list Flag) : list Flag :=
  let pd := portfolio_duration df in
  if Qgtb pd (max_portfolio_duration L) then
    append flags {| check := "Portfolio Duration"; status := BREACH;
                    detail := ExceedsMax pd (max_portfolio_duration L) |}
  else if Qltb pd (min_portfolio_duration L) then
    append flags {| check := "Portfolio Duration"; status := BREACH;
                    detail := BelowMin pd (min_portfolio_duration L) |}
  else
    append flags {| check := "Portfolio Duration"; status := PASS;
                    detail := WithinRange pd (min_portfolio_duration L)
                                          (max_portfolio_duration L) |}.

(** The finding the first check appends. *)
Definition duration_finding : Flag :=
  let pd := portfolio_duration df in
  if Qgtb pd (max_portfolio_duration L) then
    {| check := "Portfolio Duration"; status := BREACH;
       detail := ExceedsMax pd (max_portfolio_duration L) |}
  else if Qltb pd (min_portfolio_duration L) then
    {| check := "Portfolio Duration"; status := BREACH;
       detail := BelowMin pd (min_portfolio_duration L) |}
  else
    {| check := "Portfolio Duration"; status := PASS;
       detail := WithinRange pd (min_portfolio_duration L)
                             (max_portfolio_duration L) |}.

Definition check_position_weight (flags : list Flag) : list Flag :=
  fold_left
    (fun flags p =>
       let name := ("Position Concentration [" ++ bond_id (p_row p) ++ "]")%string in
       if Qgtb (p_weight p) (max_single_position_weight L) then
         append flags {| check := name; status := BREACH;
                         detail := ExceedsMax (p_weight p)
                                     (max_single_position_weight L) |}
       else
         append flags {| check := name; status := PASS;
                         detail := WithinLimit (p_weight p) |})
    df flags.

Definition check_sector_concentration (flags : list Flag) : list Flag :=
  fold_left
    (fun flags r =>
       let name := ("Sector Concentration [" ++ fst r ++ "]")%string in
       if Qgtb (snd r) (max_sector_concentration L) then
         append flags {| check := name; status := BREACH;
                         detail := ExceedsMax (snd r)
                                     (max_sector_concentration L) |}
       else
         append flags {| check := name; status := PASS;
                         detail := WithinLimit (snd r) |})
    sector_table flags.

Definition isin (x : string) (xs : list string) : bool :=
  existsb (String.eqb x) xs.

Definition aaa_aa_weight : Q :=
  sum (map p_weight
         (filter (fun p => isin (credit_rating (p_row p)) ["AAA"; "AA"]%string)
                 df)).

Definition check_credit_quality (flags : list Flag) : list Flag :=
  if Qltb aaa_aa_weight (min_credit_quality_aaa_aa L) then
    append flags {| check := "Credit Quality (AAA+AA floor)"; status := BREACH;
                    detail := BelowMin aaa_aa_weight
                                (min_credit_quality_aaa_aa L) |}
  else
    append flags {| check := "Credit Quality (AAA+AA floor)"; status := PASS;
                    detail := AboveMin aaa_aa_weight
                                (min_credit_quality_aaa_aa L) |}.

Definition check_dv01 (flags : list Flag) : list Flag :=
  fold_left
    (fun flags p =>
       let name := ("DV01 Limit [" ++ bond_id (p_row p) ++ "]")%string in
       if Qgtb (p_dv01 p) (max_dv01_per_position L) then
         append flags {| check := name; status := BREACH;
                         detail := ExceedsMax (p_dv01 p)
                                     (max_dv01_per_position L) |}
       else
         append flags {| check := name; status := PASS;
                         detail := WithinLimit (p_dv01 p) |})
    df flags.

Definition check_min_ytm (flags : list Flag) : list Flag :=
  let y := portfolio_ytm df in
  if Qltb y (min_ytm L) then
    append flags {| check := "Minimum Portfolio YTM"; status := BREACH;
                    detail := BelowMin y (min_ytm L) |}
  else
    append flags {| check := "Minimum Portfolio YTM"; status := PASS;
                    detail := AboveMin y (min_ytm L) |}.

(** The list [flags] once the six checks have run, in script order. *)
Definition flags : list Flag :=
  check_min_ytm
    (check_dv01
       (check_credit_quality
          (check_sector_concentration
             (check_position_weight
                (check_portfolio_duration []))))).

(** [flags_df[flags_df["status"] == ...]]. *)
Definition breaches : list Flag :=
  filter (fun f => String.eqb (status f) BREACH) flags.

Definition passes : list Flag :=
  filter (fun f => String.eqb (status f) PASS) flags.

End Surveillance.

(** ** Sample holdings *)

Definition holding (id sec : string) (F c y m : Q) (q : Z) : Row :=
  {| bond_id := id; issuer := "US Treasury"; face_value := F;
     coupon_rate := c; ytm := y; credit_rating := "AAA"; sector := sec;
     quantity := q; years_to_maturity := m |}.

(** Face value 1,000,000, coupon 0%, yield 5%, ten years to maturity. *)
Definition zero_coupon_10y : Row :=
  holding "ZERO-10Y" "Government" 1000000 0 (5 # 100) 10 1.

(** The two-year Treasury of the script on its maturity date. *)
Definition matured_today : Row :=
  holding "UST-2Y" "Government" 1000000 (45 # 1000) (442 # 10000) 0 10.

(** A record with a negative face value. *)
Definition negative_face : Row :=
  holding "NEG-FACE" "Government" (-1000) (5 # 100) (5 # 100) 2 1.

(** A record with a yield of -300%. *)
Definition yield_below_minus_one : Row :=
  holding "YLD-300" "Government" 1000 0 (-3) 2 1.

(** Eighteen positions of equal market value. *)
Definition eighteen_equal : list Q := repeat 100 18.

(** Eighteen sectors of equal market value. *)
Definition eighteen_sectors : list (string * Q) :=
  map (fun s => (s, 100))
      ["S01"; "S02"; "S03"; "S04"; "S05"; "S06"; "S07"; "S08"; "S09";
       "S10"; "S11"; "S12"; "S13"; "S14"; "S15"; "S16"; "S17"; "S18"]%string.

(** Two positions in two sectors. *)
Definition two_sectors : list (string * Q) :=
  [("Government", 750); ("Financial", 250)]%string.

(** A one-position frame holding the zero-coupon bond. *)
Definition single_position : DataFrame :=
  [ {| p_row := zero_coupon_10y;
       p_market_value := 61391325 # 100;
       p_weight := 1;
       p_modified_duration := 95238 # 10000;
       p_dv01 := dv01 (61391325 # 100) (95238 # 10000) |} ].

(** ** Remaining columns, tables and report figures *)

(** [df["years_to_maturity"]]: the day count from the valuation date to
    maturity over 365.25, to 2 decimals. *)
Definition years_to_maturity_of (days : Z) : Q :=
  round (inject_Z days / (36525 # 100)) 2.

(** [credit_allocation]: the pipeline of [sector_allocation], read off the
    [credit_rating] and [market_value] columns. *)
Definition credit_allocation (df : list (string * Q))
  : option (list (string * Q)) :=
  let total := total_portfolio_value (map snd df) in
  grouped <- traverse
    (fun kv => q <- div (snd kv) total ;; Some (fst kv, round q 4))
    (groupby_sum df) ;;
  Some (sort_values_desc grouped).

Section Findings.

Variable L : Limits.
Variable df : DataFrame.

(** The finding each loop body or branch of checks 2 to 6 appends. *)
Definition position_finding (p : Position) : Flag :=
  let name := ("Position Concentration [" ++ bond_id (p_row p) ++ "]")%string in
  if Qgtb (p_weight p) (max_single_position_weight L) then
    {| check := name; status := BREACH;
       detail := ExceedsMax (p_weight p) (max_single_position_weight L) |}
  else
    {| check := name; status := PASS; detail := WithinLimit (p_weight p) |}.

Definition sector_finding (r : string * Q) : Flag :=
  let name := ("Sector Concentration [" ++ fst r ++ "]")%string in
  if Qgtb (snd r) (max_sector_concentration L) then
    {| check := name; status := BREACH;
       detail := ExceedsMax (snd r) (max_sector_concentration L) |}
  else
    {| check := name; status := PASS; detail := WithinLimit (snd r) |}.

Definition credit_finding : Flag :=
  if Qltb (aaa_aa_weight df) (min_credit_quality_aaa_aa L) then
    {| check := "Credit Quality (AAA+AA floor)"; status := BREACH;
       detail := BelowMin (aaa_aa_weight df) (min_credit_quality_aaa_aa L) |}
  else
    {| check := "Credit Quality (AAA+AA floor)"; status := PASS;
       detail := AboveMin (aaa_aa_weight df) (min_credit_quality_aaa_aa L) |}.

Definition dv01_finding (p : Position) : Flag :=
  let name := ("DV01 Limit [" ++ bond_id (p_row p) ++ "]")%string in
  if Qgtb (p_dv01 p) (max_dv01_per_position L) then
    {| check := name; status := BREACH;
       detail := ExceedsMax (p_dv01 p) (max_dv01_per_position L) |}
  else
    {| check := name; status := PASS; detail := WithinLimit (p_dv01 p) |}.

Definition ytm_finding : Flag :=
  let y := portfolio_ytm df in
  if Qltb y (min_ytm L) then
    {| check := "Minimum Portfolio YTM"; status := BREACH;
       detail := BelowMin y (min_ytm L) |}
  else
    {| check := "Minimum Portfolio YTM"; status := PASS;
       detail := AboveMin y (min_ytm L) |}.

Variable sector_table : list (string * Q).

(** [breaches.empty], behind the ALL CLEAR line of the report. *)
Definition all_clear : bool :=
  match breaches L df sector_table with
  | [] => true
  | _ :: _ => false
  end.

(** [pass_rate = n_passes / total_checks * 100]. *)
Definition pass_rate : option Q :=
  let total_checks := List.length (flags L df sector_table) in
  let n_passes := List.length (passes L df sector_table) in
  q <- div (inject_Z (Z.of_nat n_passes)) (inject_Z (Z.of_nat total_checks)) ;;
  Some (q * 100).

End Findings.

(** A frame with two positions, one over the single-position limit. *)
Definition two_positions : DataFrame :=
  [ {| p_row := zero_coupon_10y;
       p_market_value := 750; p_weight := 75 # 100;
       p_modified_duration := 95238 # 10000;
       p_dv01 := dv01 750 (95238 # 10000) |};
    {| p_row := matured_today;
       p_market_value := 250; p_weight := 25 # 100;
       p_modified_duration := 9577 # 10000;
       p_dv01 := dv01 250 (9577 # 10000) |} ].

(** A frame inside every limit of [MANDATE_LIMITS]. *)
Definition compliant_frame : DataFrame :=
  [ {| p_row := holding "A" "Government" 1000 (4 # 100) (4 # 100) 3 1;
       p_market_value := 300; p_weight := 30 # 100;
       p_modified_duration := 3;
       p_dv01 := dv01 300 3 |};
    {| p_row := holding "B" "Financial" 1000 (4 # 100) (4 # 100) 4 1;
       p_market_value := 350; p_weight := 35 # 100;
       p_modified_duration := 4;
       p_dv01 := dv01 350 4 |};
    {| p_row := holding "C" "Technology" 1000 (4 # 100) (4 # 100) 3 1;
       p_market_value := 350; p_weight := 35 # 100;
       p_modified_duration := 3;
       p_dv01 := dv01 350 3 |} ].

Definition compliant_sectors : list (string * Q) :=
  [("Financial", 35 # 100); ("Technology", 35 # 100);
   ("Government", 30 # 100)]%string.


(** A bond maturing the day after the valuation date. *)
Definition matures_tomorrow : Row :=
  holding "UST-1D" "Government" 1000000 (45 # 1000) (442 # 10000)
          (years_to_maturity_of 1) 10.

(** A frame whose only position is rated A. *)
Definition single_a_frame : DataFrame :=
  [ {| p_row := {| bond_id := "CORP-JPM-5Y"; issuer := "JPMorgan Chase";
                   face_value := 1000000; coupon_rate := 51 # 1000;
                   ytm := 525 # 10000; credit_rating := "A";
                   sector := "Financial"; quantity := 5;
                   years_to_maturity := 4 |};
       p_market_value := 5000000; p_weight := 1;
       p_modified_duration := 35 # 10;
       p_dv01 := dv01 5000000 (35 # 10) |} ].

(** * Properties *)

(** ** Rounding *)

Lemma round_half_even_comp (x y : Q) :
  x == y -> round_half_even x = round_half_even y.
Proof.
  intros E. unfold round_half_even.
  rewrite (Qfloor_comp _ _ E).
  assert (C : Qcompare (x - inject_Z (Qfloor y)) (1 # 2)
              = Qcompare (y - inject_Z (Qfloor y)) (1 # 2)).
  { apply Qcompare_comp; [rewrite E|]; reflexivity. }
  rewrite C. reflexivity.
Qed.

Lemma round_comp (x y : Q) (d : nat) : x == y -> round x d = round y d.
Proof.
  intros E. unfold round. f_equal.
  apply round_half_even_comp. rewrite E. reflexivity.
Qed.

Lemma round_half_even_bounds (x : Q) :
  x - (1 # 2) <= inject_Z (round_half_even x) <= x + (1 # 2).
Proof.
  unfold round_half_even.
  pose proof (Qfloor_le x) as Lo.
  pose proof (Qlt_floor x) as Hi.
  rewrite inject_Z_plus in Hi. change (inject_Z 1) with 1 in Hi.
  destruct (Qcompare_spec (x - inject_Z (Qfloor x)) (1 # 2)) as [E|E|E].
  - destruct (Z.even (Qfloor x)); [lra|].
    rewrite inject_Z_plus. change (inject_Z 1) with 1. lra.
  - lra.
  - rewrite inject_Z_plus. change (inject_Z 1) with 1. lra.
Qed.

Lemma round_half_even_nonneg (x : Q) : 0 <= x -> (0 <= round_half_even x)%Z.
Proof.
  intros H. unfold round_half_even.
  assert (F : (0 <= Qfloor x)%Z).
  { change 0%Z with (Qfloor 0). apply Qfloor_resp_le, H. }
  destruct (Qcompare _ _); [destruct (Z.even _)| |]; lia.
Qed.

Lemma round_half_even_Z (z : Z) : round_half_even (inject_Z z) = z.
Proof.
  unfold round_half_even. rewrite Qfloor_Z.
  assert (C : Qcompare (inject_Z z - inject_Z z) (1 # 2) = Lt).
  { apply Qlt_alt.
    assert (E : inject_Z z - inject_Z z == 0) by ring.
    rewrite E. reflexivity. }
  rewrite C. reflexivity.
Qed.

Lemma Qmake_pow10 (z : Z) (d : nat) :
  z # pow10 d == inject_Z z / inject_Z (Zpos (pow10 d)).
Proof. apply Qmake_Qdiv. Qed.

Lemma pow10_pos (d : nat) : 0 < inject_Z (Zpos (pow10 d)).
Proof. unfold Qlt. simpl. lia. Qed.

(** Rounding to [d] decimals moves a number by at most half a unit of the
    last digit kept. *)
Lemma round_error (x : Q) (d : nat) :
  Qabs (round x d - x) <= 1 # (2 * pow10 d).
Proof.
  unfold round. rewrite Qmake_pow10.
  pose proof (pow10_pos d) as P.
  set (p := inject_Z (Zpos (pow10 d))) in *.
  pose proof (round_half_even_bounds (x * p)) as [Lo Hi].
  set (z := inject_Z (round_half_even (x * p))) in *.
  assert (E : (1 # (2 * pow10 d)) == (1 # 2) / p).
  { unfold p. rewrite (Qmake_Qdiv 1 (2 * pow10 d)).
    rewrite Pos2Z.inj_mul, inject_Z_mult. field.
    intro Z0. unfold p in P. rewrite Z0 in P. lra. }
  rewrite E.
  assert (D : z / p - x == (z - x * p) / p) by (field; lra).
  rewrite D. unfold Qdiv. rewrite Qabs_Qmult.
  rewrite (Qabs_pos (/ p)) by (apply Qlt_le_weak, Qinv_lt_0_compat, P).
  apply Qmult_le_compat_r.
  - apply Qabs_Qle_condition. lra.
  - apply Qlt_le_weak, Qinv_lt_0_compat, P.
Qed.

Lemma round_nonneg (x : Q) (d : nat) : 0 <= x -> 0 <= round x d.
Proof.
  intros H. unfold round, Qle. simpl. rewrite Z.mul_1_r.
  apply round_half_even_nonneg.
  apply Qmult_le_0_compat; [exact H | apply Qlt_le_weak, pow10_pos].
Qed.

Lemma round_Z (z : Z) (d : nat) : round (inject_Z z) d == inject_Z z.
Proof.
  unfold round. rewrite <- inject_Z_mult, round_half_even_Z.
  rewrite Qmake_pow10, inject_Z_mult. field.
  pose proof (pow10_pos d). lra.
Qed.

(** ** Sums and ranges *)

Lemma fold_left_Qplus (xs : list Q) (a : Q) :
  fold_left Qplus xs a == a + sum xs.
Proof.
  unfold sum. revert a.
  induction xs as [|x xs IH]; intros a; simpl.
  - ring.
  - rewrite (IH (a + x)), (IH (0 + x)). ring.
Qed.

Lemma sum_cons (x : Q) (xs : list Q) : sum (x :: xs) == x + sum xs.
Proof. unfold sum at 1. simpl. rewrite fold_left_Qplus. ring. Qed.

Lemma sum_app (xs ys : list Q) : sum (xs ++ ys) == sum xs + sum ys.
Proof.
  induction xs as [|x xs IH]; simpl.
  - unfold sum at 2. simpl. ring.
  - rewrite !sum_cons, IH. ring.
Qed.

Lemma range_1_S (n : nat) :
  range 1 (Z.of_nat (S n) + 1) = range 1 (Z.of_nat n + 1) ++ [Z.of_nat (S n)].
Proof.
  unfold range.
  replace (Z.to_nat (Z.of_nat (S n) + 1 - 1)) with (S n) by lia.
  replace (Z.to_nat (Z.of_nat n + 1 - 1)) with n by lia.
  rewrite seq_S, map_app. cbn [map Nat.add]. do 2 f_equal. lia.
Qed.

(** Python's left-to-right [sum] over [range(1, n+1)] is the mathematical
    sum from 1 to n. *)
Lemma sum_range_bigsum (f : Z -> Q) (n : nat) :
  sum (map f (range 1 (Z.of_nat n + 1))) == bigsum n f.
Proof.
  induction n as [|n IH].
  - reflexivity.
  - rewrite range_1_S, map_app, sum_app, IH. cbn [map].
    rewrite sum_cons. change (sum []) with 0.
    change (bigsum (S n) f) with (bigsum n f + f (Z.of_nat (S n))). ring.
Qed.

Lemma bigsum_zero (f : Z -> Q) (n : nat) :
  (forall t, (1 <= t <= Z.of_nat n)%Z -> f t == 0) -> bigsum n f == 0.
Proof.
  induction n as [|n IH]; intros H.
  - reflexivity.
  - change (bigsum n f + f (Z.of_nat (S n)) == 0).
    rewrite IH, H; [ring | lia | intros t Ht; apply H; lia].
Qed.

Lemma bigsum_nonneg (f : Z -> Q) (n : nat) :
  (forall t, (1 <= t <= Z.of_nat n)%Z -> 0 <= f t) -> 0 <= bigsum n f.
Proof.
  induction n as [|n IH]; intros H.
  - apply Qle_refl.
  - change (0 <= bigsum n f + f (Z.of_nat (S n))).
    assert (A : 0 <= bigsum n f) by (apply IH; intros t Ht; apply H; lia).
    assert (B : 0 <= f (Z.of_nat (S n))) by (apply H; lia).
    lra.
Qed.

(** ** Fallible comprehensions *)

Lemma Qeq_bool_0_comp (x y : Q) : x == y -> Qeq_bool x 0 = Qeq_bool y 0.
Proof.
  intros E.
  destruct (Qeq_bool x 0) eqn:X, (Qeq_bool y 0) eqn:Y; try reflexivity.
  - apply Qeq_bool_iff in X. rewrite E in X.
    apply Qeq_bool_iff in X. congruence.
  - apply Qeq_bool_iff in Y. rewrite <- E in Y.
    apply Qeq_bool_iff in Y. congruence.
Qed.

Lemma traverse_div (a : Z -> Q) (g : Z -> Q) (ts : list Z) :
  traverse (fun t => div (a t) (g t)) ts
  = if forallb (fun t => negb (Qeq_bool (g t) 0)) ts
    then Some (map (fun t => a t / g t) ts)
    else None.
Proof.
  induction ts as [|t ts IH]; simpl.
  - reflexivity.
  - unfold div at 1. destruct (Qeq_bool (g t) 0); simpl.
    + reflexivity.
    + rewrite IH. destruct (forallb _ ts); reflexivity.
Qed.

(** [int(m)] and [floor(m)] give the same number of whole years. *)
Lemma py_int_periods (m : Q) :
  Z.to_nat (py_int m + 1 - 1) = Z.to_nat (Qfloor m).
Proof.
  unfold py_int. destruct m as [n d]. simpl.
  destruct (Z.le_gt_cases 0 n) as [P|N].
  - rewrite Z.quot_div_nonneg by lia. f_equal. lia.
  - assert (A : (n ÷ Zpos d <= 0)%Z).
    { apply Z.quot_le_upper_bound; lia. }
    assert (B : (n / Zpos d < 0)%Z).
    { apply Z.div_lt_upper_bound; lia. }
    lia.
Qed.

Lemma Qfloor_lt_1 (m : Q) : m < 1 -> Z.to_nat (Qfloor m) = O.
Proof.
  intros H.
  assert (F : (Qfloor m < 1)%Z).
  { pose proof (Qfloor_le m) as Lo.
    assert (I : inject_Z (Qfloor m) < inject_Z 1) by (change (inject_Z 1) with 1; lra).
    rewrite <- Zlt_Qlt in I. exact I. }
  lia.
Qed.

Lemma traverse_combine_map {A : Type} (f : Q * Q -> option A)
      (a b : Z -> Q) (ts : list Z) :
  traverse f (combine (map a ts) (map b ts))
  = traverse (fun t => f (a t, b t)) ts.
Proof.
  induction ts as [|t ts IH]; simpl.
  - reflexivity.
  - rewrite IH. reflexivity.
Qed.

(** ** Arrays of the duration computation *)

Lemma iadd_last_app (a : list Q) (x v : Q) :
  iadd_last (a ++ [x]) v = a ++ [x + v].
Proof.
  induction a as [|x0 a IH]; simpl.
  - reflexivity.
  - rewrite IH. destruct a; reflexivity.
Qed.

Lemma map_const_range (f : Z -> Q) (a : Q) (n : nat) :
  (forall t, (1 <= t <= Z.of_nat n)%Z -> f t = a) ->
  map f (range 1 (Z.of_nat n + 1)) = repeat a n.
Proof.
  induction n as [|n IH]; intros H.
  - reflexivity.
  - rewrite range_1_S, map_app, IH by (intros t Ht; apply H; lia).
    cbn [map]. rewrite H by lia. symmetry. apply repeat_cons.
Qed.

(** The array built by [np.full] and [cash_flows[-1] += face_value] holds
    the coupon at every period and coupon plus principal at the last. *)
Lemma cash_flows_array (a v : Q) (n : nat) :
  iadd_last (repeat a (S n)) v
  = map (fun t => if Z.eqb t (Z.of_nat (S n)) then a + v else a)
        (range 1 (Z.of_nat (S n) + 1)).
Proof.
  rewrite range_1_S, map_app. cbn [map]. rewrite Z.eqb_refl.
  rewrite (map_const_range _ a n).
  - change (repeat a (S n)) with (a :: repeat a n).
    rewrite repeat_cons. apply iadd_last_app.
  - intros t Ht. destruct (Z.eqb_spec t (Z.of_nat (S n))); [lia | reflexivity].
Qed.

Lemma np_multiply_map (g : Z -> Q) (ts : list Z) :
  np_multiply ts (map g ts) = map (fun t => inject_Z t * g t) ts.
Proof.
  unfold np_multiply. induction ts as [|t ts IH]; simpl.
  - reflexivity.
  - rewrite IH. reflexivity.
Qed.

Lemma periods_of_pos (m : Q) : (1 <= periods_of m)%Z.
Proof. unfold periods_of. lia. Qed.

(** ** Valuation *)

Section ValuationFacts.

Variable pow : Q -> Q -> Q.

Lemma price_per_bond_eq (row : Row) :
  price_per_bond pow row
  = if discountable pow row
    then Some (price_formula pow (face_value row) (coupon_rate row)
                 (ytm row) (years_to_maturity row))
    else None.
Proof.
  unfold price_per_bond, discountable, price_formula.
  rewrite (traverse_div (fun _ => coupon_rate row * face_value row)
             (fun t => pow (1 + ytm row) (inject_Z t))).
  destruct (forallb _ _); simpl; [|reflexivity].
  unfold div. destruct (Qeq_bool _ 0); simpl; [reflexivity|].
  f_equal. apply round_comp.
  assert (R : range 1 (py_int (years_to_maturity row) + 1)
              = range 1 (Z.of_nat (Z.to_nat (Qfloor (years_to_maturity row))) + 1)).
  { unfold range. rewrite py_int_periods. do 2 f_equal. lia. }
  rewrite R, sum_range_bigsum. reflexivity.
Qed.

(** C1.  The price per unit is the sum over the whole years
    t = 1..floor(m) of (c*F)/(1+y)^t plus F/(1+y)^m, rounded to 2 decimal
    places, whenever no discount factor is zero (otherwise no price
    results); with m < 1 there is no coupon term and the price is the
    discounted principal F/(1+y)^m rounded to 2 decimal places. *)
Theorem price_per_bond_formula (row : Row) :
  let F := face_value row in
  let c := coupon_rate row in
  let y := ytm row in
  let m := years_to_maturity row in
  price_per_bond pow row
  = (if discountable pow row
     then Some (round (bigsum (Z.to_nat (Qfloor m))
                         (fun t => (c * F) / pow (1 + y) (inject_Z t))
                       + F / pow (1 + y) m) 2)
     else None)
  /\ (m < 1 ->
      price_per_bond pow row
      = if Qeq_bool (pow (1 + y) m) 0 then None
        else Some (round (F / pow (1 + y) m) 2)).
Proof.
  intros F c y m. split.
  - apply price_per_bond_eq.
  - intros Hm. rewrite price_per_bond_eq.
    unfold discountable, price_formula. fold y m F c.
    assert (R : range 1 (py_int m + 1) = []).
    { unfold range. rewrite py_int_periods, (Qfloor_lt_1 m Hm). reflexivity. }
    rewrite R, (Qfloor_lt_1 m Hm). simpl.
    destruct (Qeq_bool _ 0); simpl; [reflexivity|].
    f_equal. apply round_comp. ring.
Qed.

(** The array computation of [macaulay_duration], term by term. *)
Lemma macaulay_duration_eq (c F y m : Q) :
  let N := Z.max 1 (round_half_even m) in
  let CF := fun t : Z => if Z.eqb t N then c * F + F else c * F in
  let PV := fun t : Z => CF t / pow (1 + y) (inject_Z t) in
  macaulay_duration pow c F y m
  = if finite_duration pow c F y m
    then Some (round (bigsum (Z.to_nat N) (fun t => inject_Z t * PV t)
                      / bigsum (Z.to_nat N) PV) 4)
    else None.
Proof.
  intros N CF PV.
  unfold macaulay_duration, finite_duration, np_divide, np_full.
  change (periods_of m) with N. change (Z.max 1 (round_half_even m)) with N.
  change (present_value pow c F y N) with PV.
  assert (HN : (1 <= N)%Z) by apply periods_of_pos.
  destruct (Z.to_nat N) as [|n] eqn:En; [lia|].
  assert (EN : N = Z.of_nat (S n)) by lia.
  rewrite cash_flows_array, <- EN.
  change (fun t : Z => if Z.eqb t N then c * F + F else c * F) with CF.
  rewrite (traverse_combine_map (fun xy => div (fst xy) (snd xy)) CF
             (fun t => pow (1 + y) (inject_Z t))).
  cbn [fst snd].
  rewrite (traverse_div CF (fun t => pow (1 + y) (inject_Z t))).
  destruct (forallb _ _); cbn [bind andb]; [|reflexivity].
  change (map (fun t : Z => CF t / pow (1 + y) (inject_Z t))) with (map PV).
  rewrite np_multiply_map.
  assert (S1 : sum (map PV (range 1 (N + 1))) == bigsum (S n) PV).
  { rewrite EN. apply sum_range_bigsum. }
  assert (S2 : sum (map (fun t => inject_Z t * PV t) (range 1 (N + 1)))
               == bigsum (S n) (fun t => inject_Z t * PV t)).
  { rewrite EN. apply sum_range_bigsum. }
  unfold div. rewrite (Qeq_bool_0_comp _ _ S1).
  destruct (Qeq_bool _ 0); cbn [bind negb]; [reflexivity|].
  f_equal. apply round_comp. rewrite S1, S2. reflexivity.
Qed.

(** C2.  The Macaulay duration runs over N = max(1, round(m)) annual
    periods, with cash flow c*F at each period t = 1..N and F added at
    period N, each discounted by (1+y)^t, and is the ratio of the
    time-weighted present values to the present values, rounded to 4
    decimal places.  It is a finite number exactly when no discount factor
    and not the total present value is zero. *)
Theorem macaulay_duration_formula (c F y m : Q) :
  let N := Z.max 1 (round_half_even m) in
  let CF := fun t : Z => if Z.eqb t N then c * F + F else c * F in
  let PV := fun t : Z => CF t / pow (1 + y) (inject_Z t) in
  macaulay_duration pow c F y m
  = if finite_duration pow c F y m
    then Some (round (bigsum (Z.to_nat N) (fun t => inject_Z t * PV t)
                      / bigsum (Z.to_nat N) PV) 4)
    else None.
Proof. exact (macaulay_duration_eq c F y m). Qed.

(** C4.  The modified duration of a bond is its computed Macaulay
    duration divided by (1 + ytm) and rounded to 4 decimal places, so it
    differs from the quotient by at most half a unit of the fourth decimal;
    it depends on the bond only through these two numbers. *)
Theorem modified_duration_relation (row : Row) (mac : Q) :
  macaulay_duration_of pow row = Some mac ->
  ~ 1 + ytm row == 0 ->
  exists md : Q,
    modified_duration_of pow row = Some md
    /\ md = round (mac / (1 + ytm row)) 4
    /\ Qabs (md - mac / (1 + ytm row)) <= 1 # 20000.
Proof.
  intros Hmac Hy. unfold modified_duration_of. rewrite Hmac.
  cbn [bind]. unfold modified_duration, div.
  destruct (Qeq_bool (1 + ytm row) 0) eqn:E.
  - apply Qeq_bool_iff in E. contradiction.
  - cbn [bind]. eexists. split; [reflexivity|]. split; [reflexivity|].
    apply (round_error (mac / (1 + ytm row)) 4).
Qed.

Hypothesis pow_pos : forall x e : Q, 0 < x -> 0 < pow x e.

Lemma discount_factors_nonzero (y : Q) (ts : list Z) :
  -1 < y ->
  forallb (fun t => negb (Qeq_bool (pow (1 + y) (inject_Z t)) 0)) ts = true.
Proof.
  intros Hy. apply forallb_forall. intros t _.
  destruct (Qeq_bool _ 0) eqn:E; [|reflexivity].
  apply Qeq_bool_iff in E.
  pose proof (pow_pos (1 + y) (inject_Z t)) as P. lra.
Qed.

(** C3 (amended).  For a bond with coupon rate 0, non-zero face value and
    yield above -100%, the Macaulay duration is the period count
    N = max(1, round(m)), the only cash flow being the principal at period
    N; it is m itself whenever m is a whole number of years, at least 1. *)
Theorem zero_coupon_duration (c F y m : Q) :
  c == 0 -> ~ F == 0 -> -1 < y ->
  exists d : Q,
    macaulay_duration pow c F y m = Some d
    /\ d == inject_Z (Z.max 1 (round_half_even m))
    /\ (forall k : Z, (1 <= k)%Z -> m == inject_Z k -> d == m).
Proof.
  intros Hc HF Hy.
  rewrite macaulay_duration_eq.
  unfold finite_duration. rewrite (discount_factors_nonzero y _ Hy).
  change (periods_of m) with (Z.max 1 (round_half_even m)).
  unfold present_value, cash_flow.
  set (N := Z.max 1 (round_half_even m)).
  set (PV := fun t : Z =>
               (if Z.eqb t N then c * F + F else c * F)
               / pow (1 + y) (inject_Z t)).
  assert (HN : (1 <= N)%Z) by (unfold N; lia).
  destruct (Z.to_nat N) as [|n] eqn:En; [lia|].
  assert (EN : Z.of_nat (S n) = N) by lia.
  pose proof (pow_pos (1 + y) (inject_Z N)) as P.
  assert (Plast : PV N == F / pow (1 + y) (inject_Z N)).
  { unfold PV. rewrite Z.eqb_refl, Hc. field. lra. }
  assert (Pother : forall t, (1 <= t <= Z.of_nat n)%Z -> PV t == 0).
  { intros t Ht. unfold PV.
    destruct (Z.eqb_spec t N); [lia|].
    pose proof (pow_pos (1 + y) (inject_Z t)).
    rewrite Hc. field. lra. }
  assert (T : bigsum (S n) PV == PV N).
  { change (bigsum n PV + PV (Z.of_nat (S n)) == PV N).
    rewrite (bigsum_zero PV n Pother), EN. ring. }
  assert (W : bigsum (S n) (fun t => inject_Z t * PV t) == inject_Z N * PV N).
  { change (bigsum n (fun t => inject_Z t * PV t)
            + inject_Z (Z.of_nat (S n)) * PV (Z.of_nat (S n))
            == inject_Z N * PV N).
    rewrite bigsum_zero, EN; [ring|].
    intros t Ht. rewrite (Pother t Ht). ring. }
  assert (NZ : ~ PV N == 0).
  { rewrite Plast. intros Z0. apply HF.
    assert (E : F == F / pow (1 + y) (inject_Z N) * pow (1 + y) (inject_Z N))
      by (field; lra).
    rewrite E, Z0. ring. }
  assert (B : Qeq_bool (bigsum (S n) PV) 0 = false).
  { destruct (Qeq_bool _ 0) eqn:E; [|reflexivity].
    apply Qeq_bool_iff in E. rewrite T in E. contradiction. }
  rewrite B. cbn [andb negb].
  eexists. split; [reflexivity|].
  assert (R : round (bigsum (S n) (fun t => inject_Z t * PV t)
                     / bigsum (S n) PV) 4 == inject_Z N).
  { rewrite (round_comp _ (inject_Z N)); [apply round_Z|].
    rewrite T, W. field. exact NZ. }
  split; [exact R|].
  intros k Hk Hm.
  assert (Ek : N = k).
  { unfold N. rewrite (round_half_even_comp _ _ Hm), round_half_even_Z. lia. }
  apply (Qeq_trans _ (inject_Z N)); [exact R|].
  rewrite Ek, Hm. reflexivity.
Qed.

Lemma discountable_above_minus_one (row : Row) :
  -1 < ytm row -> discountable pow row = true.
Proof.
  intros Hy. unfold discountable.
  rewrite (discount_factors_nonzero (ytm row) _ Hy). cbn [andb].
  destruct (Qeq_bool _ 0) eqn:E; [|reflexivity].
  apply Qeq_bool_iff in E.
  pose proof (pow_pos (1 + ytm row) (years_to_maturity row)) as P. lra.
Qed.

(** Above -100% every discount factor is positive and the price exists. *)
Lemma price_above_minus_one (row : Row) :
  -1 < ytm row ->
  price_per_bond pow row
  = Some (price_formula pow (face_value row) (coupon_rate row) (ytm row)
            (years_to_maturity row)).
Proof.
  intros Hy.
  rewrite price_per_bond_eq, (discountable_above_minus_one row Hy).
  reflexivity.
Qed.

(** C9 (amended).  Valuation checks none of its inputs and has no
    ValuationError: whenever the yield is above -100% a price is returned,
    the discounted-cash-flow value, whatever the face value (also zero or
    negative) and whatever the years-to-maturity (also zero or negative). *)
Theorem valuation_without_validation (row : Row) :
  -1 < ytm row ->
  price_per_bond pow row
  = Some (price_formula pow (face_value row) (coupon_rate row) (ytm row)
            (years_to_maturity row)).
Proof. exact (price_above_minus_one row). Qed.

Lemma macaulay_duration_nonneg (c F y m : Q) :
  0 < F -> 0 <= c -> -1 < y ->
  exists mac : Q, macaulay_duration pow c F y m = Some mac /\ 0 <= mac.
Proof.
  intros HF Hc Hy.
  rewrite macaulay_duration_eq.
  unfold finite_duration. rewrite (discount_factors_nonzero y _ Hy).
  change (periods_of m) with (Z.max 1 (round_half_even m)).
  unfold present_value, cash_flow.
  set (N := Z.max 1 (round_half_even m)).
  set (PV := fun t : Z =>
               (if Z.eqb t N then c * F + F else c * F)
               / pow (1 + y) (inject_Z t)).
  assert (HN : (1 <= N)%Z) by (unfold N; lia).
  destruct (Z.to_nat N) as [|n] eqn:En; [lia|].
  assert (EN : Z.of_nat (S n) = N) by lia.
  assert (CF0 : 0 <= c * F) by (apply Qmult_le_0_compat; lra).
  assert (PV0 : forall t, 0 <= PV t).
  { intros t. unfold PV.
    pose proof (pow_pos (1 + y) (inject_Z t)) as P.
    apply Qle_shift_div_l; [lra|].
    destruct (Z.eqb t N); lra. }
  assert (PVN : 0 < PV N).
  { unfold PV. rewrite Z.eqb_refl.
    pose proof (pow_pos (1 + y) (inject_Z N)) as P.
    apply Qlt_shift_div_l; lra. }
  assert (T : 0 < bigsum (S n) PV).
  { change (0 < bigsum n PV + PV (Z.of_nat (S n))). rewrite EN.
    pose proof (bigsum_nonneg PV n (fun t _ => PV0 t)). lra. }
  assert (W : 0 <= bigsum (S n) (fun t => inject_Z t * PV t)).
  { apply bigsum_nonneg. intros t Ht.
    apply Qmult_le_0_compat; [|apply PV0].
    change 0 with (inject_Z 0). rewrite <- Zle_Qle. lia. }
  assert (B : Qeq_bool (bigsum (S n) PV) 0 = false).
  { destruct (Qeq_bool _ 0) eqn:E; [|reflexivity].
    apply Qeq_bool_iff in E. lra. }
  rewrite B. cbn [andb negb].
  eexists. split; [reflexivity|].
  apply round_nonneg. apply Qle_shift_div_l; [exact T|].
  rewrite Qmult_0_l. exact W.
Qed.

(** C5 (amended).  For every position with positive face value,
    non-negative coupon rate and yield above -100%, the market value and
    the modified duration are finite numbers, DV01 is market value x
    modified duration x 0.0001, and DV01 is non-negative whenever the
    market value is non-negative. *)
Theorem dv01_nonneg (row : Row) :
  0 < face_value row -> 0 <= coupon_rate row -> -1 < ytm row ->
  exists mv md : Q,
    market_value_of pow row = Some mv
    /\ modified_duration_of pow row = Some md
    /\ dv01_of pow row = Some (mv * md * (1 # 10000))
    /\ (0 <= mv -> 0 <= mv * md * (1 # 10000)).
Proof.
  intros HF Hc Hy.
  destruct (macaulay_duration_nonneg (coupon_rate row) (face_value row)
              (ytm row) (years_to_maturity row) HF Hc Hy) as [mac [Em Hm]].
  assert (Emd : modified_duration_of pow row
                = Some (round (mac / (1 + ytm row)) 4)).
  { unfold modified_duration_of, macaulay_duration_of. rewrite Em.
    cbn [bind]. unfold modified_duration, div.
    destruct (Qeq_bool (1 + ytm row) 0) eqn:E; [|reflexivity].
    apply Qeq_bool_iff in E. lra. }
  assert (Hmd : 0 <= round (mac / (1 + ytm row)) 4).
  { apply round_nonneg. apply Qle_shift_div_l; lra. }
  assert (Emv : market_value_of pow row
                = Some (price_formula pow (face_value row) (coupon_rate row)
                          (ytm row) (years_to_maturity row)
                        * inject_Z (quantity row))).
  { unfold market_value_of. rewrite (price_above_minus_one row Hy).
    reflexivity. }
  eexists. eexists. split; [exact Emv|]. split; [exact Emd|]. split.
  - unfold dv01_of. rewrite Emv, Emd. reflexivity.
  - intros Hmv.
    apply Qmult_le_0_compat; [apply Qmult_le_0_compat; assumption|].
    discriminate.
Qed.

End ValuationFacts.

(** ** Weights *)

Lemma traverse_total {A B : Type} (f : A -> option B) (h : A -> B)
      (xs : list A) :
  (forall x, In x xs -> f x = Some (h x)) ->
  traverse f xs = Some (map h xs).
Proof.
  induction xs as [|x xs IH]; intros H; simpl.
  - reflexivity.
  - rewrite (H x) by (left; reflexivity). cbn [bind].
    rewrite IH by (intros y Hy; apply H; right; exact Hy). reflexivity.
Qed.

Lemma div_nonzero (x y : Q) : ~ y == 0 -> div x y = Some (x / y).
Proof.
  intros H. unfold div. destruct (Qeq_bool y 0) eqn:E; [|reflexivity].
  apply Qeq_bool_iff in E. contradiction.
Qed.

Lemma sum_map_div (xs : list Q) (t : Q) :
  sum (map (fun x => x / t) xs) == sum xs / t.
Proof.
  induction xs as [|x xs IH]; cbn [map].
  - change (sum []) with 0. unfold Qdiv. ring.
  - rewrite !sum_cons, IH. unfold Qdiv. ring.
Qed.

(** Rounding every term to [d] decimals moves a sum of [n] terms by at
    most [n] half-units of the last digit. *)
Lemma sum_round_error (xs : list Q) (d : nat) :
  Qabs (sum (map (fun x => round x d) xs) - sum xs)
  <= inject_Z (Z.of_nat (List.length xs)) * (1 # (2 * pow10 d)).
Proof.
  induction xs as [|x xs IH].
  - cbn [map List.length]. change (sum []) with 0. discriminate.
  - cbn [map]. rewrite !sum_cons.
    change (List.length (x :: xs)) with (S (List.length xs)).
    rewrite Nat2Z.inj_succ, <- Z.add_1_r, inject_Z_plus.
    change (inject_Z 1) with 1.
    assert (E : round x d + sum (map (fun x0 => round x0 d) xs) - (x + sum xs)
                == (round x d - x)
                   + (sum (map (fun x0 => round x0 d) xs) - sum xs)) by ring.
    rewrite E.
    eapply Qle_trans; [apply Qabs_triangle|].
    pose proof (round_error x d) as R.
    set (n := inject_Z (Z.of_nat (List.length xs))) in *.
    set (e := 1 # (2 * pow10 d)) in *.
    assert (D : (n + 1) * e == n * e + e) by ring.
    rewrite D. lra.
Qed.

Lemma weight_eq (market_value : list Q) :
  ~ total_portfolio_value market_value == 0 ->
  weight market_value
  = Some (map (fun mv => round (mv / total_portfolio_value market_value) 4)
              market_value).
Proof.
  intros H. unfold weight. apply traverse_total.
  intros mv _. rewrite (div_nonzero _ _ H). reflexivity.
Qed.

(** C6 (amended).  With positive total market value, each weight is the
    position's market value divided by the total, rounded to 4 decimal
    places; the rounded weights are kept as they are, and their sum is
    within n x 0.00005 of 1.0 for n positions (so within 0.0005 for up to
    ten positions). *)
Theorem weight_sum_bound (market_value : list Q) :
  0 < total_portfolio_value market_value ->
  exists w : list Q,
    weight market_value = Some w
    /\ w = map (fun mv => round (mv / total_portfolio_value market_value) 4)
               market_value
    /\ Qabs (sum w - 1)
       <= inject_Z (Z.of_nat (List.length market_value)) * (1 # 20000).
Proof.
  intros H.
  assert (NZ : ~ total_portfolio_value market_value == 0) by lra.
  eexists. split; [apply (weight_eq _ NZ)|]. split; [reflexivity|].
  set (T := total_portfolio_value market_value) in *.
  pose proof (sum_round_error (map (fun mv => mv / T) market_value) 4) as B.
  rewrite map_map, length_map, sum_map_div in B.
  assert (E : sum market_value / T == 1) by (unfold T, total_portfolio_value; field; exact NZ).
  rewrite E in B. exact B.
Qed.

(** ** Grouping by sector *)

Lemma slt_trans (a b c : string) : slt a b -> slt b c -> slt a c.
Proof.
  unfold slt. intros A B.
  apply OrderedTypeEx.String_as_OT.cmp_lt.
  apply OrderedTypeEx.String_as_OT.cmp_lt in A, B.
  exact (OrderedTypeEx.String_as_OT.lt_trans _ _ _ A B).
Qed.

Lemma slt_irrefl (a : string) : ~ slt a a.
Proof.
  unfold slt. intros A.
  assert (E : String.compare a a = Eq)
    by (apply OrderedTypeEx.String_as_OT.cmp_eq; reflexivity).
  congruence.
Qed.

Lemma compare_Gt_slt (a b : string) : String.compare a b = Gt -> slt b a.
Proof.
  unfold slt. intros G. rewrite String.compare_antisym, G. reflexivity.
Qed.

Lemma group_add_keys (k : string) (v : Q) (g : list (string * Q)) (x : string) :
  In x (map fst (group_add k v g)) <-> x = k \/ In x (map fst g).
Proof.
  induction g as [|[k' s] g IH]; simpl.
  - intuition.
  - destruct (String.compare k k') eqn:C; simpl.
    + apply String.compare_eq_iff in C. subst k'. intuition.
    + intuition.
    + rewrite IH. intuition.
Qed.

Lemma group_add_sorted (k : string) (v : Q) (g : list (string * Q)) :
  StronglySorted slt (map fst g) ->
  StronglySorted slt (map fst (group_add k v g)).
Proof.
  induction g as [|[k' s] g IH]; simpl; intros S.
  - constructor; constructor.
  - inversion S as [|? ? S' F]; subst.
    destruct (String.compare k k') eqn:C; simpl.
    + constructor; assumption.
    + constructor; [exact S|].
      constructor; [exact C|].
      eapply Forall_impl; [|exact F].
      intros a Ha. exact (slt_trans _ _ _ C Ha).
    + constructor; [apply IH; exact S'|].
      apply Forall_forall. intros x Hx.
      apply group_add_keys in Hx. destruct Hx as [->|Hx].
      * apply compare_Gt_slt, C.
      * rewrite Forall_forall in F. apply F, Hx.
Qed.

Lemma sorted_keys_NoDup (ks : list string) :
  StronglySorted slt ks -> NoDup ks.
Proof.
  induction 1 as [|k ks S IH F]; constructor; [|exact IH].
  intros I. rewrite Forall_forall in F. exact (slt_irrefl k (F k I)).
Qed.

Lemma sector_value_cons (s k : string) (v : Q) (df : list (string * Q)) :
  sector_value s ((k, v) :: df)
  == (if String.eqb k s then v else 0) + sector_value s df.
Proof.
  unfold sector_value. cbn [filter fst].
  destruct (String.eqb k s); cbn [map snd].
  - apply sum_cons.
  - ring.
Qed.

Lemma group_add_value (s k : string) (v : Q) (g : list (string * Q)) :
  sector_value s (group_add k v g)
  == (if String.eqb k s then v else 0) + sector_value s g.
Proof.
  induction g as [|[k' a] g IH]; cbn [group_add].
  - apply sector_value_cons.
  - destruct (String.compare k k') eqn:C.
    + apply String.compare_eq_iff in C. subst k'.
      rewrite !sector_value_cons. destruct (String.eqb k s); ring.
    + apply sector_value_cons.
    + rewrite !sector_value_cons, IH. ring.
Qed.

Lemma group_add_total (k : string) (v : Q) (g : list (string * Q)) :
  sum (map snd (group_add k v g)) == v + sum (map snd g).
Proof.
  induction g as [|[k' a] g IH]; cbn [group_add].
  - cbn [map snd]. apply sum_cons.
  - destruct (String.compare k k'); cbn [map snd].
    + rewrite !sum_cons. ring.
    + rewrite !sum_cons. cbn [snd]. ring.
    + rewrite !sum_cons, IH. ring.
Qed.

Lemma fold_group_keys (df g : list (string * Q)) (x : string) :
  In x (map fst (fold_left group_step df g))
  <-> In x (map fst df) \/ In x (map fst g).
Proof.
  revert g. induction df as [|[k v] df IH]; intros g; cbn [fold_left map].
  - simpl. intuition.
  - rewrite IH. unfold group_step. cbn [fst snd].
    rewrite group_add_keys. simpl. intuition.
Qed.

Lemma fold_group_sorted (df g : list (string * Q)) :
  StronglySorted slt (map fst g) ->
  StronglySorted slt (map fst (fold_left group_step df g)).
Proof.
  revert g. induction df as [|[k v] df IH]; intros g S; cbn [fold_left].
  - exact S.
  - apply IH. apply group_add_sorted, S.
Qed.

Lemma fold_group_value (s : string) (df g : list (string * Q)) :
  sector_value s (fold_left group_step df g)
  == sector_value s df + sector_value s g.
Proof.
  revert g. induction df as [|[k v] df IH]; intros g; cbn [fold_left].
  - unfold sector_value at 2. cbn [filter map]. change (sum []) with 0. ring.
  - rewrite IH. unfold group_step. cbn [fst snd].
    rewrite group_add_value, sector_value_cons. ring.
Qed.

Lemma fold_group_total (df g : list (string * Q)) :
  sum (map snd (fold_left group_step df g))
  == sum (map snd df) + sum (map snd g).
Proof.
  revert g. induction df as [|[k v] df IH]; intros g; cbn [fold_left].
  - cbn [map]. change (sum []) with 0. ring.
  - rewrite IH. unfold group_step. cbn [fst snd map].
    rewrite group_add_total, sum_cons. ring.
Qed.

Lemma groupby_sum_keys (df : list (string * Q)) (x : string) :
  In x (map fst (groupby_sum df)) <-> In x (map fst df).
Proof.
  unfold groupby_sum. rewrite fold_group_keys. simpl. intuition.
Qed.

Lemma groupby_sum_NoDup (df : list (string * Q)) :
  NoDup (map fst (groupby_sum df)).
Proof.
  apply sorted_keys_NoDup. unfold groupby_sum.
  apply fold_group_sorted. constructor.
Qed.

Lemma groupby_sum_total (df : list (string * Q)) :
  sum (map snd (groupby_sum df)) == sum (map snd df).
Proof.
  unfold groupby_sum. rewrite fold_group_total.
  cbn [map]. change (sum []) with 0. ring.
Qed.

Lemma sector_value_absent (s : string) (g : list (string * Q)) :
  ~ In s (map fst g) -> sector_value s g == 0.
Proof.
  induction g as [|[k a] g IH]; intros N.
  - reflexivity.
  - rewrite sector_value_cons.
    destruct (String.eqb_spec k s) as [->|D].
    + exfalso. apply N. left. reflexivity.
    + rewrite IH; [ring|]. intros I. apply N. right. exact I.
Qed.

Lemma sector_value_unique (s : string) (a : Q) (g : list (string * Q)) :
  NoDup (map fst g) -> In (s, a) g -> sector_value s g == a.
Proof.
  induction g as [|[k b] g IH]; intros ND I.
  - contradiction.
  - cbn [map fst] in ND. inversion ND as [|? ? NI ND']; subst.
    rewrite sector_value_cons. destruct I as [E|I].
    + inversion E; subst. rewrite String.eqb_refl.
      rewrite (sector_value_absent s g NI). ring.
    + destruct (String.eqb_spec k s) as [->|D].
      * exfalso. apply NI. apply (in_map fst) in I. exact I.
      * rewrite (IH ND' I). ring.
Qed.

(** Every group holds the market value of its sector. *)
Lemma groupby_sum_value (df : list (string * Q)) (s : string) (a : Q) :
  In (s, a) (groupby_sum df) -> a == sector_value s df.
Proof.
  intros I.
  rewrite <- (sector_value_unique s a _ (groupby_sum_NoDup df) I).
  unfold groupby_sum. rewrite fold_group_value.
  unfold sector_value at 2. cbn [filter map]. change (sum []) with 0. ring.
Qed.

(** ** Sorting the allocation table *)

Lemma insert_desc_perm (r : string * Q) (t : list (string * Q)) :
  Permutation (insert_desc r t) (r :: t).
Proof.
  induction t as [|r' t IH]; simpl.
  - apply Permutation_refl.
  - destruct (Qle_bool (snd r') (snd r)).
    + apply Permutation_refl.
    + eapply Permutation_trans; [apply perm_skip, IH | apply perm_swap].
Qed.

Lemma sort_values_desc_perm (t : list (string * Q)) :
  Permutation (sort_values_desc t) t.
Proof.
  induction t as [|r t IH]; simpl.
  - apply Permutation_refl.
  - eapply Permutation_trans; [apply insert_desc_perm | apply perm_skip, IH].
Qed.

Lemma Qle_bool_false (x y : Q) : Qle_bool x y = false -> y <= x.
Proof.
  intros H. destruct (Qlt_le_dec y x) as [L|L].
  - apply Qlt_le_weak, L.
  - apply Qle_bool_iff in L. congruence.
Qed.

Lemma insert_desc_sorted (r : string * Q) (t : list (string * Q)) :
  descending t -> descending (insert_desc r t).
Proof.
  unfold descending.
  induction t as [|r' t IH]; intros S; simpl.
  - repeat constructor.
  - destruct (Qle_bool (snd r') (snd r)) eqn:C.
    + constructor; [exact S|]. constructor. apply Qle_bool_iff, C.
    + inversion S as [|? ? S' H]; subst.
      constructor; [apply IH, S'|].
      destruct t as [|r'' t]; simpl.
      * constructor. apply Qle_bool_false, C.
      * destruct (Qle_bool (snd r'') (snd r)); constructor.
        -- apply Qle_bool_false, C.
        -- inversion H; assumption.
Qed.

Lemma sort_values_desc_sorted (t : list (string * Q)) :
  descending (sort_values_desc t).
Proof.
  induction t as [|r t IH]; simpl.
  - constructor.
  - apply insert_desc_sorted, IH.
Qed.

Lemma sum_Permutation (xs ys : list Q) : Permutation xs ys -> sum xs == sum ys.
Proof.
  induction 1 as [|x xs ys P IH|x y xs|xs ys zs P1 IH1 P2 IH2].
  - reflexivity.
  - rewrite !sum_cons, IH. reflexivity.
  - rewrite !sum_cons. ring.
  - rewrite IH1. exact IH2.
Qed.

(** C7 (amended).  With positive total market value the sector table has
    one row per distinct sector of the input, holding the sector's summed
    market value divided by the total and rounded to 4 decimals, in
    descending order of allocation; its keys are the sectors present in
    the input, and its values sum to 1.0 within k x 0.00005 for k sectors
    (so within 0.0005 for up to ten sectors). *)
Theorem sector_allocation_table (df : list (string * Q)) :
  0 < total_portfolio_value (map snd df) ->
  exists table : list (string * Q),
    sector_allocation df = Some table
    /\ descending table
    /\ NoDup (map fst table)
    /\ (forall s, In s (map fst table) <-> In s (map fst df))
    /\ (forall s a, In (s, a) table ->
          a = round (sector_value s df / total_portfolio_value (map snd df)) 4)
    /\ Qabs (sum (map snd table) - 1)
       <= inject_Z (Z.of_nat (List.length table)) * (1 # 20000).
Proof.
  intros H.
  set (T := total_portfolio_value (map snd df)) in *.
  assert (NZ : ~ T == 0) by lra.
  set (h := fun kv : string * Q => (fst kv, round (snd kv / T) 4)).
  set (g := groupby_sum df).
  assert (E : sector_allocation df = Some (sort_values_desc (map h g))).
  { unfold sector_allocation. fold T g.
    rewrite (traverse_total _ h); [reflexivity|].
    intros kv _. rewrite (div_nonzero _ _ NZ). reflexivity. }
  pose proof (sort_values_desc_perm (map h g)) as P.
  assert (K : map fst (map h g) = map fst g).
  { rewrite map_map. apply map_ext. reflexivity. }
  exists (sort_values_desc (map h g)).
  split; [exact E|]. split; [apply sort_values_desc_sorted|].
  split; [|split; [|split]].
  - apply (Permutation_NoDup (l := map fst (map h g))).
    + apply Permutation_sym, Permutation_map, P.
    + rewrite K. apply groupby_sum_NoDup.
  - intros s. rewrite <- (groupby_sum_keys df s). fold g. rewrite <- K.
    split; apply Permutation_in.
    + apply Permutation_map, P.
    + apply Permutation_sym, Permutation_map, P.
  - intros s a I.
    apply (Permutation_in _ P) in I.
    apply in_map_iff in I. destruct I as [[k b] [Eh I]].
    unfold h in Eh. cbn [fst snd] in Eh. inversion Eh; subst.
    apply round_comp.
    rewrite (groupby_sum_value df s b I). reflexivity.
  - rewrite (sum_Permutation _ _ (Permutation_map snd P)).
    rewrite (Permutation_length P), length_map.
    assert (M : map snd (map h g)
                = map (fun x => round x 4) (map (fun kv => snd kv / T) g)).
    { rewrite !map_map. apply map_ext. reflexivity. }
    rewrite M.
    pose proof (sum_round_error (map (fun kv => snd kv / T) g) 4) as B.
    rewrite length_map in B.
    assert (S1 : sum (map (fun kv => snd kv / T) g) == 1).
    { rewrite <- (map_map snd (fun x => x / T)), sum_map_div.
      unfold g. rewrite groupby_sum_total. fold (total_portfolio_value (map snd df)).
      fold T. field. exact NZ. }
    rewrite S1 in B. exact B.
Qed.

(** ** Surveillance *)

Lemma Qgtb_true (x y : Q) : Qgtb x y = true <-> y < x.
Proof.
  unfold Qgtb. split; intros H.
  - destruct (Qlt_le_dec y x) as [L|L]; [exact L|].
    apply Qle_bool_iff in L. rewrite L in H. discriminate.
  - destruct (Qle_bool x y) eqn:E; [|reflexivity].
    apply Qle_bool_iff in E. lra.
Qed.

Lemma Qltb_true (x y : Q) : Qltb x y = true <-> x < y.
Proof. apply (Qgtb_true y x). Qed.

(** A loop whose body appends one finding per item adds its findings
    after those already there, in item order. *)
Lemma fold_left_append {A : Type} (step : list Flag -> A -> list Flag)
      (g : A -> Flag) (xs : list A) (fl : list Flag) :
  (forall fl x, step fl x = append fl (g x)) ->
  fold_left step xs fl = fl ++ map g xs.
Proof.
  intros H. revert fl. induction xs as [|x xs IH]; intros fl; simpl.
  - rewrite app_nil_r. reflexivity.
  - rewrite IH, H. unfold append. rewrite <- app_assoc. reflexivity.
Qed.

Lemma append_known (fl : list Flag) (f : Flag) :
  Forall known_status fl -> known_status f -> Forall known_status (append fl f).
Proof.
  intros A B. unfold append. apply Forall_app. split; [exact A|].
  constructor; [exact B | constructor].
Qed.

Lemma fold_left_known {A : Type} (step : list Flag -> A -> list Flag)
      (xs : list A) (fl : list Flag) :
  (forall fl x, Forall known_status fl -> Forall known_status (step fl x)) ->
  Forall known_status fl -> Forall known_status (fold_left step xs fl).
Proof.
  intros H. revert fl. induction xs as [|x xs IH]; intros fl K; simpl.
  - exact K.
  - apply IH, H, K.
Qed.

Lemma BREACH_not_PASS : BREACH <> PASS.
Proof. discriminate. Qed.

Lemma partition_by_status (fl : list Flag) :
  Forall known_status fl ->
  (List.length (filter (fun f => String.eqb (status f) BREACH) fl)
   + List.length (filter (fun f => String.eqb (status f) PASS) fl)
   = List.length fl)%nat.
Proof.
  induction 1 as [|f fl K _ IH]; simpl.
  - reflexivity.
  - destruct K as [K|K]; rewrite K; simpl; lia.
Qed.

Section SurveillanceFacts.

Variable L : Limits.
Variable df : DataFrame.
Variable sector_table : list (string * Q).

Ltac known_branches :=
  repeat match goal with
         | |- context [if ?b then _ else _] => destruct b
         end;
  apply append_known; try assumption; (left; reflexivity) || (right; reflexivity).

Lemma check_portfolio_duration_known (fl : list Flag) :
  Forall known_status fl -> Forall known_status (check_portfolio_duration L df fl).
Proof. intros K. unfold check_portfolio_duration. cbv zeta. known_branches. Qed.

Lemma check_position_weight_known (fl : list Flag) :
  Forall known_status fl -> Forall known_status (check_position_weight L df fl).
Proof.
  unfold check_position_weight. apply fold_left_known.
  intros fl' p K. cbv zeta. known_branches.
Qed.

Lemma check_sector_concentration_known (fl : list Flag) :
  Forall known_status fl ->
  Forall known_status (check_sector_concentration L sector_table fl).
Proof.
  unfold check_sector_concentration. apply fold_left_known.
  intros fl' p K. cbv zeta. known_branches.
Qed.

Lemma check_credit_quality_known (fl : list Flag) :
  Forall known_status fl -> Forall known_status (check_credit_quality L df fl).
Proof. intros K. unfold check_credit_quality. known_branches. Qed.

Lemma check_dv01_known (fl : list Flag) :
  Forall known_status fl -> Forall known_status (check_dv01 L df fl).
Proof.
  unfold check_dv01. apply fold_left_known.
  intros fl' p K. cbv zeta. known_branches.
Qed.

Lemma check_min_ytm_known (fl : list Flag) :
  Forall known_status fl -> Forall known_status (check_min_ytm L df fl).
Proof. intros K. unfold check_min_ytm. cbv zeta. known_branches. Qed.

(** C10.  Every finding of a run has status PASS or BREACH, never both,
    and the number of breaches plus the number of passes is the number of
    findings. *)
Theorem findings_partition :
  Forall (fun f => (status f = PASS \/ status f = BREACH)
                   /\ ~ (status f = PASS /\ status f = BREACH))
         (flags L df sector_table)
  /\ (List.length (breaches L df sector_table)
      + List.length (passes L df sector_table)
      = List.length (flags L df sector_table))%nat.
Proof.
  assert (K : Forall known_status (flags L df sector_table)).
  { unfold flags.
    apply check_min_ytm_known, check_dv01_known, check_credit_quality_known,
      check_sector_concentration_known, check_position_weight_known,
      check_portfolio_duration_known.
    constructor. }
  split.
  - eapply Forall_impl; [|exact K].
    intros f [B|P]; split; auto.
    + intros [P B']. rewrite B in P. exact (BREACH_not_PASS P).
    + intros [P' B]. rewrite P in B. exact (BREACH_not_PASS (eq_sym B)).
  - unfold breaches, passes. apply partition_by_status, K.
Qed.

Lemma check_portfolio_duration_eq (fl : list Flag) :
  check_portfolio_duration L df fl = fl ++ [duration_finding L df].
Proof.
  unfold check_portfolio_duration, duration_finding, append. cbv zeta.
  destruct (Qgtb _ _); [reflexivity|]. destruct (Qltb _ _); reflexivity.
Qed.

Lemma check_position_weight_eq (fl : list Flag) :
  exists more, check_position_weight L df fl = fl ++ more.
Proof.
  unfold check_position_weight. eexists.
  apply (fold_left_append _
           (fun p =>
              if Qgtb (p_weight p) (max_single_position_weight L)
              then {| check := ("Position Concentration [" ++ bond_id (p_row p) ++ "]")%string;
                      status := BREACH;
                      detail := ExceedsMax (p_weight p) (max_single_position_weight L) |}
              else {| check := ("Position Concentration [" ++ bond_id (p_row p) ++ "]")%string;
                      status := PASS;
                      detail := WithinLimit (p_weight p) |})).
  intros fl' p. cbv zeta. destruct (Qgtb _ _); reflexivity.
Qed.

Lemma check_sector_concentration_eq (fl : list Flag) :
  exists more, check_sector_concentration L sector_table fl = fl ++ more.
Proof.
  unfold check_sector_concentration. eexists.
  apply (fold_left_append _
           (fun r =>
              if Qgtb (snd r) (max_sector_concentration L)
              then {| check := ("Sector Concentration [" ++ fst r ++ "]")%string;
                      status := BREACH;
                      detail := ExceedsMax (snd r) (max_sector_concentration L) |}
              else {| check := ("Sector Concentration [" ++ fst r ++ "]")%string;
                      status := PASS;
                      detail := WithinLimit (snd r) |})).
  intros fl' p. cbv zeta. destruct (Qgtb _ _); reflexivity.
Qed.

Lemma check_credit_quality_eq (fl : list Flag) :
  exists more, check_credit_quality L df fl = fl ++ more.
Proof.
  unfold check_credit_quality, append.
  destruct (Qltb _ _); eexists; reflexivity.
Qed.

Lemma check_dv01_eq (fl : list Flag) :
  exists more, check_dv01 L df fl = fl ++ more.
Proof.
  unfold check_dv01. eexists.
  apply (fold_left_append _
           (fun p =>
              if Qgtb (p_dv01 p) (max_dv01_per_position L)
              then {| check := ("DV01 Limit [" ++ bond_id (p_row p) ++ "]")%string;
                      status := BREACH;
                      detail := ExceedsMax (p_dv01 p) (max_dv01_per_position L) |}
              else {| check := ("DV01 Limit [" ++ bond_id (p_row p) ++ "]")%string;
                      status := PASS;
                      detail := WithinLimit (p_dv01 p) |})).
  intros fl' p. cbv zeta. destruct (Qgtb _ _); reflexivity.
Qed.

Lemma check_min_ytm_eq (fl : list Flag) :
  exists more, check_min_ytm L df fl = fl ++ more.
Proof.
  unfold check_min_ytm, append. cbv zeta.
  destruct (Qltb _ _); eexists; reflexivity.
Qed.

(** C8.  The portfolio-duration rule adds exactly one finding, which is
    the first of the output list: BREACH when the portfolio duration is
    above the maximum, BREACH when it is below the minimum, PASS otherwise;
    with limits min <= max no duration is both above the maximum and below
    the minimum. *)
Theorem portfolio_duration_check :
  let pd := portfolio_duration df in
  exists (f : Flag) (rest : list Flag),
    (forall fl, check_portfolio_duration L df fl = fl ++ [f])
    /\ flags L df sector_table = f :: rest
    /\ check f = "Portfolio Duration"%string
    /\ (max_portfolio_duration L < pd -> status f = BREACH)
    /\ (pd < min_portfolio_duration L -> status f = BREACH)
    /\ (~ max_portfolio_duration L < pd -> ~ pd < min_portfolio_duration L ->
        status f = PASS)
    /\ (min_portfolio_duration L <= max_portfolio_duration L ->
        ~ (max_portfolio_duration L < pd /\ pd < min_portfolio_duration L)).
Proof.
  intros pd.
  assert (F : exists rest, flags L df sector_table = duration_finding L df :: rest).
  { unfold flags. rewrite check_portfolio_duration_eq. cbn [app].
    destruct (check_position_weight_eq [duration_finding L df]) as [m1 E1].
    destruct (check_sector_concentration_eq ([duration_finding L df] ++ m1)) as [m2 E2].
    destruct (check_credit_quality_eq (([duration_finding L df] ++ m1) ++ m2)) as [m3 E3].
    destruct (check_dv01_eq ((([duration_finding L df] ++ m1) ++ m2) ++ m3)) as [m4 E4].
    destruct (check_min_ytm_eq (((([duration_finding L df] ++ m1) ++ m2) ++ m3) ++ m4))
      as [m5 E5].
    rewrite E1, E2, E3, E4, E5. eexists. cbn [app]. reflexivity. }
  destruct F as [rest F].
  exists (duration_finding L df), rest.
  split; [apply check_portfolio_duration_eq|]. split; [exact F|].
  unfold duration_finding. cbv zeta. fold pd.
  destruct (Qgtb pd (max_portfolio_duration L)) eqn:G;
    [|destruct (Qltb pd (min_portfolio_duration L)) eqn:B]; cbn [check status].
  - apply Qgtb_true in G. repeat split; try reflexivity.
    + intros N _. contradiction.
    + intros Hl [A1 A2]. lra.
  - apply Qltb_true in B. repeat split; try reflexivity.
    + intros _ N. contradiction.
    + intros Hl [A1 A2]. lra.
  - assert (NG : ~ max_portfolio_duration L < pd).
    { intros A. apply Qgtb_true in A. congruence. }
    assert (NB : ~ pd < min_portfolio_duration L).
    { intros A. apply Qltb_true in A. congruence. }
    repeat split; try reflexivity.
    + intros A. contradiction.
    + intros A. contradiction.
    + intros Hl [A1 A2]. contradiction.
Qed.

End SurveillanceFacts.

(** ** The model on sample holdings *)

Lemma pow_whole_pos (x e : Q) : 0 < x -> 0 < pow_whole x e.
Proof. intros H. unfold pow_whole. apply Qpower_0_lt, H. Qed.

Lemma price_per_bond_formula_witness :
  years_to_maturity matured_today < 1
  /\ price_per_bond pow_whole matured_today
     = (if Qeq_bool (pow_whole (1 + ytm matured_today)
                                (years_to_maturity matured_today)) 0
        then None
        else Some (round (face_value matured_today
                          / pow_whole (1 + ytm matured_today)
                                      (years_to_maturity matured_today)) 2)).
Proof.
  assert (H : years_to_maturity matured_today < 1) by reflexivity.
  split; [exact H|].
  exact (proj2 (price_per_bond_formula pow_whole matured_today) H).
Defined.

Lemma zero_coupon_duration_counterexample :
  0 < 5 # 2
  /\ macaulay_duration pow_whole 0 1000 (5 # 100) (5 # 2) = Some (20000 # 10000)
  /\ ~ (20000 # 10000) == 5 # 2.
Proof.
  split; [reflexivity|]. split; [vm_compute; reflexivity|].
  intros H. discriminate H.
Qed.

Lemma zero_coupon_duration_witness :
  exists d : Q,
    macaulay_duration pow_whole 0 1000000 (5 # 100) 10 = Some d
    /\ d == inject_Z (Z.max 1 (round_half_even 10))
    /\ (forall k : Z, (1 <= k)%Z -> 10 == inject_Z k -> d == 10).
Proof.
  apply (zero_coupon_duration pow_whole pow_whole_pos 0 1000000 (5 # 100) 10).
  - reflexivity.
  - intros H. discriminate H.
  - reflexivity.
Defined.

Lemma modified_duration_relation_witness :
  exists md : Q,
    modified_duration_of pow_whole zero_coupon_10y = Some md
    /\ md = round ((100000 # 10000) / (1 + ytm zero_coupon_10y)) 4
    /\ Qabs (md - (100000 # 10000) / (1 + ytm zero_coupon_10y)) <= 1 # 20000.
Proof.
  apply (modified_duration_relation pow_whole zero_coupon_10y (100000 # 10000)).
  - vm_compute. reflexivity.
  - intros H. discriminate H.
Defined.

Lemma dv01_nonneg_counterexample :
  0 <= face_value yield_below_minus_one
  /\ 0 <= coupon_rate yield_below_minus_one
  /\ market_value_of pow_whole yield_below_minus_one = Some (25000 # 100)
  /\ 0 <= 25000 # 100
  /\ modified_duration_of pow_whole yield_below_minus_one = Some (-10000 # 10000)
  /\ dv01_of pow_whole yield_below_minus_one
     = Some (dv01 (25000 # 100) (-10000 # 10000))
  /\ dv01 (25000 # 100) (-10000 # 10000) < 0.
Proof.
  repeat split; try (vm_compute; reflexivity); discriminate.
Qed.

Lemma dv01_nonneg_witness :
  exists mv md : Q,
    market_value_of pow_whole zero_coupon_10y = Some mv
    /\ modified_duration_of pow_whole zero_coupon_10y = Some md
    /\ dv01_of pow_whole zero_coupon_10y = Some (mv * md * (1 # 10000))
    /\ (0 <= mv -> 0 <= mv * md * (1 # 10000)).
Proof.
  apply (dv01_nonneg pow_whole pow_whole_pos zero_coupon_10y).
  - reflexivity.
  - discriminate.
  - reflexivity.
Defined.

Lemma weight_sum_bound_counterexample :
  0 < total_portfolio_value eighteen_equal
  /\ weight eighteen_equal = Some (repeat (556 # 10000) 18)
  /\ ~ Qabs (sum (repeat (556 # 10000) 18) - 1) <= 5 # 10000.
Proof.
  split; [reflexivity|]. split; [vm_compute; reflexivity|].
  intros H. vm_compute in H. apply H. reflexivity.
Qed.

Lemma weight_sum_bound_witness :
  exists w : list Q,
    weight [750; 250] = Some w
    /\ w = map (fun mv => round (mv / total_portfolio_value [750; 250]) 4)
               [750; 250]
    /\ Qabs (sum w - 1) <= inject_Z (Z.of_nat (List.length [750; 250])) * (1 # 20000).
Proof. apply (weight_sum_bound [750; 250]). reflexivity. Defined.

Lemma sector_allocation_table_counterexample :
  0 < total_portfolio_value (map snd eighteen_sectors)
  /\ exists table : list (string * Q),
       sector_allocation eighteen_sectors = Some table
       /\ List.length table = 18%nat
       /\ ~ Qabs (sum (map snd table) - 1) <= 5 # 10000.
Proof.
  split; [reflexivity|].
  eexists. split; [vm_compute; reflexivity|]. split; [reflexivity|].
  intros H. vm_compute in H. apply H. reflexivity.
Qed.

Lemma sector_allocation_table_witness :
  exists table : list (string * Q),
    sector_allocation two_sectors = Some table
    /\ descending table
    /\ NoDup (map fst table)
    /\ (forall s, In s (map fst table) <-> In s (map fst two_sectors))
    /\ (forall s a, In (s, a) table ->
          a = round (sector_value s two_sectors
                     / total_portfolio_value (map snd two_sectors)) 4)
    /\ Qabs (sum (map snd table) - 1)
       <= inject_Z (Z.of_nat (List.length table)) * (1 # 20000).
Proof. apply (sector_allocation_table two_sectors). reflexivity. Defined.

Lemma portfolio_duration_check_witness :
  min_portfolio_duration MANDATE_LIMITS <= max_portfolio_duration MANDATE_LIMITS
  /\ ~ (max_portfolio_duration MANDATE_LIMITS < portfolio_duration single_position
        /\ portfolio_duration single_position < min_portfolio_duration MANDATE_LIMITS).
Proof.
  assert (H : min_portfolio_duration MANDATE_LIMITS
              <= max_portfolio_duration MANDATE_LIMITS) by discriminate.
  split; [exact H|].
  destruct (portfolio_duration_check MANDATE_LIMITS single_position [])
    as [f [rest [_ [_ [_ [_ [_ [_ X]]]]]]]].
  exact (X H).
Defined.

Lemma valuation_without_validation_counterexample :
  face_value negative_face <= 0
  /\ price_per_bond pow_whole negative_face = Some (-100000 # 100).
Proof. split; [discriminate | vm_compute; reflexivity]. Qed.

Lemma valuation_without_validation_witness :
  price_per_bond pow_whole negative_face
  = Some (price_formula pow_whole (face_value negative_face)
            (coupon_rate negative_face) (ytm negative_face)
            (years_to_maturity negative_face)).
Proof.
  apply (valuation_without_validation pow_whole pow_whole_pos negative_face).
  reflexivity.
Defined.

(** * Further properties of the script *)

(** ** More on rounding *)

Lemma round_half_even_mono (x y : Q) :
  x <= y -> (round_half_even x <= round_half_even y)%Z.
Proof.
  intros H.
  destruct (Z_le_gt_dec (round_half_even x) (round_half_even y)) as [L|G];
    [exact L|exfalso].
  assert (G' : (round_half_even y + 1 <= round_half_even x)%Z) by lia.
  rewrite Zle_Qle, inject_Z_plus in G'. change (inject_Z 1) with 1 in G'.
  pose proof (round_half_even_bounds x) as [_ Hx].
  pose proof (round_half_even_bounds y) as [Hy _].
  assert (E : x == y) by (apply Qle_antisym; lra).
  rewrite (round_half_even_comp _ _ E) in G. lia.
Qed.

Lemma round_mono (x y : Q) (d : nat) : x <= y -> round x d <= round y d.
Proof.
  intros H. unfold round, Qle. cbn [Qnum Qden].
  apply Z.mul_le_mono_nonneg_r; [lia|].
  apply round_half_even_mono.
  apply Qmult_le_compat_r; [exact H | apply Qlt_le_weak, pow10_pos].
Qed.

(** A number that already has [d] decimals is left alone. *)
Lemma round_idempotent (x : Q) (d : nat) : round (round x d) d = round x d.
Proof.
  unfold round.
  set (z := round_half_even (x * inject_Z (Zpos (pow10 d)))).
  f_equal. rewrite <- (round_half_even_Z z) at 2.
  apply round_half_even_comp.
  rewrite Qmake_pow10. field.
  pose proof (pow10_pos d). lra.
Qed.

Lemma round_1 (d : nat) : round 1 d == 1.
Proof. apply (round_Z 1 d). Qed.

Lemma round_0 (d : nat) : round 0 d == 0.
Proof. apply (round_Z 0 d). Qed.

(** ** More on weights *)

Lemma sum_nonneg (xs : list Q) :
  (forall x, In x xs -> 0 <= x) -> 0 <= sum xs.
Proof.
  induction xs as [|x xs IH]; intros H.
  - discriminate.
  - rewrite sum_cons.
    assert (A : 0 <= x) by (apply H; left; reflexivity).
    assert (B : 0 <= sum xs) by (apply IH; intros z Hz; apply H; right; exact Hz).
    lra.
Qed.

Lemma sum_ge_member (xs : list Q) (x : Q) :
  (forall z, In z xs -> 0 <= z) -> In x xs -> x <= sum xs.
Proof.
  induction xs as [|z xs IH]; intros H I.
  - contradiction.
  - rewrite sum_cons.
    assert (A : 0 <= z) by (apply H; left; reflexivity).
    assert (B : 0 <= sum xs)
      by (apply sum_nonneg; intros w Hw; apply H; right; exact Hw).
    destruct I as [->|I].
    + lra.
    + assert (C : x <= sum xs)
        by (apply IH; [intros w Hw; apply H; right; exact Hw | exact I]).
      lra.
Qed.

Lemma sum_map_scale (k : Q) (xs : list Q) :
  sum (map (Qmult k) xs) == k * sum xs.
Proof.
  induction xs as [|x xs IH]; cbn [map].
  - change (sum []) with 0. ring.
  - rewrite !sum_cons, IH. ring.
Qed.

Lemma weight_zero_total (mv : Q) (market_value : list Q) :
  total_portfolio_value (mv :: market_value) == 0 ->
  weight (mv :: market_value) = None.
Proof.
  intros H. unfold weight. cbn [traverse]. unfold div at 1.
  apply Qeq_bool_iff in H. rewrite H. reflexivity.
Qed.

(** X1.  With non-negative market values and a positive total, every
    weight lies between 0 and 1. *)
Theorem weight_range (market_value w : list Q) :
  (forall mv, In mv market_value -> 0 <= mv) ->
  0 < total_portfolio_value market_value ->
  weight market_value = Some w ->
  forall x, In x w -> 0 <= x <= 1.
Proof.
  intros Hnn Ht Hw x Hx.
  assert (NZ : ~ total_portfolio_value market_value == 0) by lra.
  rewrite (weight_eq _ NZ) in Hw. inversion Hw; subst w. clear Hw.
  apply in_map_iff in Hx. destruct Hx as [mv [<- Hmv]].
  set (T := total_portfolio_value market_value) in *.
  assert (A : 0 <= mv) by (apply Hnn, Hmv).
  assert (B : mv <= T) by (apply sum_ge_member; assumption).
  split.
  - apply round_nonneg. apply Qle_shift_div_l; lra.
  - rewrite <- (round_1 4). apply round_mono.
    apply Qle_shift_div_r; lra.
Qed.

(** X2.  The weight column is undefined exactly when the frame is not
    empty and the total market value is zero; an empty frame gets an empty
    weight column. *)
Theorem weight_undefined_iff (market_value : list Q) :
  weight market_value = None
  <-> market_value <> [] /\ total_portfolio_value market_value == 0.
Proof.
  split.
  - intros H.
    destruct (Qeq_dec (total_portfolio_value market_value) 0) as [Z0|NZ].
    + split; [|exact Z0]. intros E. subst. discriminate H.
    + rewrite (weight_eq _ NZ) in H. discriminate H.
  - intros [NE Z0]. destruct market_value as [|mv l]; [congruence|].
    apply weight_zero_total, Z0.
Qed.

(** X3.  Weights do not change when every market value is multiplied by
    the same non-zero factor. *)
Theorem weight_scale_invariant (k : Q) (market_value : list Q) :
  ~ k == 0 ->
  weight (map (Qmult k) market_value) = weight market_value.
Proof.
  intros Hk.
  assert (S : total_portfolio_value (map (Qmult k) market_value)
              == k * total_portfolio_value market_value)
    by apply sum_map_scale.
  destruct (Qeq_dec (total_portfolio_value market_value) 0) as [Z0|NZ].
  - destruct market_value as [|mv l]; [reflexivity|].
    rewrite (weight_zero_total mv l Z0).
    apply (weight_zero_total (k * mv) (map (Qmult k) l)).
    change (k * mv :: map (Qmult k) l) with (map (Qmult k) (mv :: l)).
    rewrite S, Z0. ring.
  - assert (NZ' : ~ total_portfolio_value (map (Qmult k) market_value) == 0).
    { rewrite S. intros E. apply Qmult_integral in E. tauto. }
    rewrite (weight_eq _ NZ), (weight_eq _ NZ'), map_map.
    f_equal. apply map_ext. intros mv. apply round_comp.
    rewrite S. field. split; assumption.
Qed.

(** X4.  A weighted portfolio metric lies between the smallest and the
    largest position metric, each times the sum of the weights, when the
    weights are non-negative. *)
Theorem weighted_between (metric : Position -> Q) (df : DataFrame) (lo hi : Q) :
  (forall p, In p df -> 0 <= p_weight p) ->
  (forall p, In p df -> lo <= metric p <= hi) ->
  lo * sum (map p_weight df) <= weighted metric df <= hi * sum (map p_weight df).
Proof.
  unfold weighted.
  induction df as [|p df IH]; intros Hw Hm; cbn [map].
  - change (sum []) with 0. split; rewrite Qmult_0_r; apply Qle_refl.
  - rewrite !sum_cons.
    destruct IH as [IL IU];
      [intros q Hq; apply Hw; right; exact Hq
      |intros q Hq; apply Hm; right; exact Hq|].
    assert (W : 0 <= p_weight p) by (apply Hw; left; reflexivity).
    destruct (Hm p (or_introl eq_refl)) as [ML MU].
    assert (A : lo * p_weight p <= metric p * p_weight p)
      by (apply Qmult_le_compat_r; assumption).
    assert (B : metric p * p_weight p <= hi * p_weight p)
      by (apply Qmult_le_compat_r; assumption).
    split.
    + setoid_replace (lo * (p_weight p + sum (map p_weight df)))
        with (lo * p_weight p + lo * sum (map p_weight df)) by ring.
      lra.
    + setoid_replace (hi * (p_weight p + sum (map p_weight df)))
        with (hi * p_weight p + hi * sum (map p_weight df)) by ring.
      lra.
Qed.

(** ** More on duration *)

Lemma bigsum_scale (k : Q) (f g : Z -> Q) (n : nat) :
  (forall t, g t == k * f t) -> bigsum n g == k * bigsum n f.
Proof.
  intros H. induction n as [|n IH].
  - cbn [bigsum]. ring.
  - cbn [bigsum]. rewrite IH, H. ring.
Qed.

Lemma bigsum_time_weighted (f : Z -> Q) (n : nat) :
  (forall t, 0 <= f t) ->
  bigsum n f <= bigsum n (fun t => inject_Z t * f t)
  /\ bigsum n (fun t => inject_Z t * f t) <= inject_Z (Z.of_nat n) * bigsum n f.
Proof.
  intros H. induction n as [|n [IL IU]].
  - cbn [bigsum]. split; [apply Qle_refl|]. rewrite Qmult_0_r. apply Qle_refl.
  - cbn [bigsum].
    pose proof (bigsum_nonneg f n (fun t _ => H t)) as S0.
    pose proof (H (Z.of_nat n + 1)%Z) as A0.
    rewrite Nat2Z.inj_succ, <- Z.add_1_r, inject_Z_plus.
    change (inject_Z 1) with 1.
    set (s := bigsum n f) in *.
    set (w := bigsum n (fun t => inject_Z t * f t)) in *.
    set (a := f (Z.of_nat n + 1)%Z) in *.
    assert (N0 : 0 <= inject_Z (Z.of_nat n)).
    { change 0 with (inject_Z 0). rewrite <- Zle_Qle. lia. }
    set (m := inject_Z (Z.of_nat n)) in *.
    assert (MA : 0 <= m * a) by (apply Qmult_le_0_compat; assumption).
    split.
    + setoid_replace ((m + 1) * a) with (m * a + a) by ring. lra.
    + setoid_replace ((m + 1) * (s + a)) with (m * s + s + (m * a + a)) by ring.
      lra.
Qed.

Lemma Qeq_bool_scale (k x : Q) :
  ~ k == 0 -> Qeq_bool (k * x) 0 = Qeq_bool x 0.
Proof.
  intros Hk.
  destruct (Qeq_bool (k * x) 0) eqn:A, (Qeq_bool x 0) eqn:B; try reflexivity.
  - apply Qeq_bool_iff in A. apply Qmult_integral in A. destruct A as [A|A].
    + contradiction.
    + apply Qeq_bool_iff in A. congruence.
  - apply Qeq_bool_iff in B.
    assert (E : k * x == 0) by (rewrite B; ring).
    apply Qeq_bool_iff in E. congruence.
Qed.

Section DurationFacts.

Variable pow : Q -> Q -> Q.

(** X5.  The Macaulay duration does not depend on the scale of the face
    value: multiplying the face value by a non-zero factor leaves it
    unchanged. *)
Theorem macaulay_face_value_invariant (k c F y m : Q) :
  ~ k == 0 ->
  macaulay_duration pow c (k * F) y m = macaulay_duration pow c F y m.
Proof.
  intros Hk. rewrite !macaulay_duration_eq. unfold finite_duration.
  set (N := periods_of m).
  change (Z.max 1 (round_half_even m)) with N.
  assert (E : forall t, present_value pow c (k * F) y N t
                        == k * present_value pow c F y N t).
  { intros t. unfold present_value, cash_flow.
    destruct (Z.eqb t N); unfold Qdiv; ring. }
  set (n := Z.to_nat N).
  assert (T : bigsum n (present_value pow c (k * F) y N)
              == k * bigsum n (present_value pow c F y N))
    by (apply bigsum_scale, E).
  assert (W : bigsum n (fun t => inject_Z t * present_value pow c (k * F) y N t)
              == k * bigsum n (fun t => inject_Z t * present_value pow c F y N t)).
  { apply bigsum_scale. intros t. rewrite E. ring. }
  rewrite (Qeq_bool_0_comp _ _ T), (Qeq_bool_scale _ _ Hk).
  destruct (forallb _ _); cbn [andb]; [|reflexivity].
  destruct (Qeq_bool (bigsum n (present_value pow c F y N)) 0) eqn:B;
    cbn [negb]; [reflexivity|].
  f_equal. apply round_comp.
  change (bigsum n (fun t => inject_Z t * present_value pow c (k * F) y N t)
          / bigsum n (present_value pow c (k * F) y N)
          == bigsum n (fun t => inject_Z t * present_value pow c F y N t)
             / bigsum n (present_value pow c F y N)).
  rewrite T, W. field. split; [|exact Hk].
  intros Z0. apply Qeq_bool_iff in Z0. congruence.
Qed.

Hypothesis pow_pos : forall x e : Q, 0 < x -> 0 < pow x e.

Lemma macaulay_duration_ratio (c F y m : Q) :
  0 < F -> 0 <= c -> -1 < y ->
  exists r : Q,
    macaulay_duration pow c F y m = Some (round r 4)
    /\ 1 <= r <= inject_Z (periods_of m).
Proof.
  intros HF Hc Hy.
  rewrite macaulay_duration_eq.
  unfold finite_duration. rewrite (discount_factors_nonzero pow pow_pos y _ Hy).
  set (N := periods_of m).
  change (Z.max 1 (round_half_even m)) with N.
  change (present_value pow c F y N)
    with (fun t : Z => (if Z.eqb t N then c * F + F else c * F)
                       / pow (1 + y) (inject_Z t)).
  set (PV := fun t : Z =>
               (if Z.eqb t N then c * F + F else c * F)
               / pow (1 + y) (inject_Z t)).
  assert (HN : (1 <= N)%Z) by apply periods_of_pos.
  destruct (Z.to_nat N) as [|n] eqn:En; [lia|].
  assert (EN : Z.of_nat (S n) = N) by lia.
  assert (CF0 : 0 <= c * F) by (apply Qmult_le_0_compat; lra).
  assert (PV0 : forall t, 0 <= PV t).
  { intros t. unfold PV.
    pose proof (pow_pos (1 + y) (inject_Z t)) as P.
    apply Qle_shift_div_l; [lra|].
    destruct (Z.eqb t N); lra. }
  assert (PVN : 0 < PV N).
  { unfold PV. rewrite Z.eqb_refl.
    pose proof (pow_pos (1 + y) (inject_Z N)) as P.
    apply Qlt_shift_div_l; lra. }
  assert (T : 0 < bigsum (S n) PV).
  { change (0 < bigsum n PV + PV (Z.of_nat (S n))). rewrite EN.
    pose proof (bigsum_nonneg PV n (fun t _ => PV0 t)). lra. }
  destruct (bigsum_time_weighted PV (S n) PV0) as [WL WU].
  rewrite EN in WU.
  assert (B : Qeq_bool (bigsum (S n) PV) 0 = false).
  { destruct (Qeq_bool _ 0) eqn:E; [|reflexivity].
    apply Qeq_bool_iff in E. lra. }
  rewrite B. cbn [andb negb].
  eexists. split; [reflexivity|]. split.
  - apply Qle_shift_div_l; [exact T|]. rewrite Qmult_1_l. exact WL.
  - apply Qle_shift_div_r; [exact T|]. exact WU.
Qed.

(** X6.  For positive face value, non-negative coupon rate and yield above
    -100%, the Macaulay duration is a finite number between 1 and the
    period count N = max(1, round(m)). *)
Theorem macaulay_duration_bounds (c F y m : Q) :
  0 < F -> 0 <= c -> -1 < y ->
  exists mac : Q,
    macaulay_duration pow c F y m = Some mac
    /\ 1 <= mac <= inject_Z (Z.max 1 (round_half_even m)).
Proof.
  intros HF Hc Hy.
  destruct (macaulay_duration_ratio c F y m HF Hc Hy) as [r [E [Lo Hi]]].
  exists (round r 4). split; [exact E|]. split.
  - rewrite <- (round_1 4). apply round_mono, Lo.
  - rewrite <- (round_Z (periods_of m) 4). apply round_mono, Hi.
Qed.

(** X7.  For positive face value, non-negative coupon rate and non-negative
    yield, the modified duration of a bond is a finite number between 0 and
    its Macaulay duration. *)
Theorem modified_le_macaulay (row : Row) :
  0 < face_value row -> 0 <= coupon_rate row -> 0 <= ytm row ->
  exists mac md : Q,
    macaulay_duration_of pow row = Some mac
    /\ modified_duration_of pow row = Some md
    /\ 0 <= md <= mac.
Proof.
  intros HF Hc Hy.
  assert (Hy' : -1 < ytm row) by lra.
  destruct (macaulay_duration_ratio (coupon_rate row) (face_value row)
              (ytm row) (years_to_maturity row) HF Hc Hy') as [r [E [Lo Hi]]].
  assert (M0 : 0 <= round r 4) by (apply round_nonneg; lra).
  exists (round r 4), (round (round r 4 / (1 + ytm row)) 4).
  split; [exact E|]. split.
  - unfold modified_duration_of, macaulay_duration_of. rewrite E.
    cbn [bind]. unfold modified_duration.
    rewrite div_nonzero by lra. reflexivity.
  - split.
    + apply round_nonneg. apply Qle_shift_div_l; lra.
    + rewrite <- (round_idempotent r 4) at 2. apply round_mono.
      apply Qle_shift_div_r; [lra|].
      setoid_replace (round r 4 * (1 + ytm row))
        with (round r 4 + round r 4 * ytm row) by ring.
      assert (0 <= round r 4 * ytm row) by (apply Qmult_le_0_compat; assumption).
      lra.
Qed.

End DurationFacts.

(** ** More on prices *)

Section PriceFacts.

Variable pow : Q -> Q -> Q.

Hypothesis pow_pos : forall x e : Q, 0 < x -> 0 < pow x e.
Hypothesis pow_0 : forall x : Q, pow x 0 == 1.
Hypothesis pow_succ : forall (x : Q) (n : Z),
    (0 <= n)%Z -> pow x (inject_Z (n + 1)) == x * pow x (inject_Z n).






End PriceFacts.

(** ** Years to maturity *)

(** X10.  The years-to-maturity column is within 0.005 of the day count
    over 365.25, and a later maturity never gets fewer years. *)
Theorem years_to_maturity_of_close_and_monotone (d1 d2 : Z) :
  Qabs (years_to_maturity_of d1 - inject_Z d1 / (36525 # 100)) <= 5 # 1000
  /\ ((d1 <= d2)%Z -> years_to_maturity_of d1 <= years_to_maturity_of d2).
Proof.
  split.
  - eapply Qle_trans; [apply (round_error _ 2)|]. discriminate.
  - intros H. unfold years_to_maturity_of. apply round_mono.
    apply Qmult_le_compat_r; [|discriminate].
    rewrite <- Zle_Qle. exact H.
Qed.

Lemma years_to_maturity_of_mono (d1 d2 : Z) :
  (d1 <= d2)%Z -> years_to_maturity_of d1 <= years_to_maturity_of d2.
Proof.
  intros H. unfold years_to_maturity_of. apply round_mono.
  apply Qmult_le_compat_r; [|discriminate].
  rewrite <- Zle_Qle. exact H.
Qed.

(** X11.  The years-to-maturity column is zero exactly for bonds within
    one day of maturity; two days or more ahead it is at least 0.01, two
    days or more past it is at most -0.01. *)
Theorem years_to_maturity_of_zero (days : Z) :
  (years_to_maturity_of days == 0 <-> (-1 <= days <= 1)%Z)
  /\ ((2 <= days)%Z -> 1 # 100 <= years_to_maturity_of days)
  /\ ((days <= -2)%Z -> years_to_maturity_of days <= - (1 # 100)).
Proof.
  assert (Up : (2 <= days)%Z -> 1 # 100 <= years_to_maturity_of days).
  { intros H. apply (Qle_trans _ (years_to_maturity_of 2));
      [discriminate | apply years_to_maturity_of_mono, H]. }
  assert (Dn : (days <= -2)%Z -> years_to_maturity_of days <= - (1 # 100)).
  { intros H. apply (Qle_trans _ (years_to_maturity_of (-2)));
      [apply years_to_maturity_of_mono, H | discriminate]. }
  split; [|split; assumption].
  split.
  - intros E.
    destruct (Z_le_gt_dec 2 days) as [A|A]; [specialize (Up A); lra|].
    destruct (Z_le_gt_dec days (-2)) as [B|B]; [specialize (Dn B); lra|].
    lia.
  - intros [A B].
    assert (C : days = (-1)%Z \/ days = 0%Z \/ days = 1%Z) by lia.
    destruct C as [->|[->| ->]]; reflexivity.
Qed.

(** ** More on the allocation tables *)

Lemma sector_value_Permutation (s : string) (df df' : list (string * Q)) :
  Permutation df df' -> sector_value s df == sector_value s df'.
Proof.
  induction 1 as [|[k v] l l' P IH|[k v] [k' v'] l|l l' l'' P1 IH1 P2 IH2].
  - reflexivity.
  - rewrite !sector_value_cons, IH. reflexivity.
  - rewrite !sector_value_cons. ring.
  - rewrite IH1. exact IH2.
Qed.

(** The rows of the table: one per sector present, holding the rounded
    share of that sector. *)
Lemma sector_allocation_rows (df : list (string * Q)) :
  ~ total_portfolio_value (map snd df) == 0 ->
  exists table : list (string * Q),
    sector_allocation df = Some table
    /\ NoDup (map fst table)
    /\ (forall s a, In (s, a) table <->
          In s (map fst df)
          /\ a = round (sector_value s df
                        / total_portfolio_value (map snd df)) 4).
Proof.
  intros NZ.
  set (T := total_portfolio_value (map snd df)) in *.
  set (h := fun kv : string * Q => (fst kv, round (snd kv / T) 4)).
  set (g := groupby_sum df).
  assert (E : sector_allocation df = Some (sort_values_desc (map h g))).
  { unfold sector_allocation. fold T g.
    rewrite (traverse_total _ h); [reflexivity|].
    intros kv _. rewrite (div_nonzero _ _ NZ). reflexivity. }
  pose proof (sort_values_desc_perm (map h g)) as P.
  assert (K : map fst (map h g) = map fst g).
  { rewrite map_map. apply map_ext. reflexivity. }
  exists (sort_values_desc (map h g)).
  split; [exact E|]. split.
  - apply (Permutation_NoDup (l := map fst (map h g))).
    + apply Permutation_sym, Permutation_map, P.
    + rewrite K. apply groupby_sum_NoDup.
  - intros s a. split.
    + intros I. apply (Permutation_in _ P) in I.
      apply in_map_iff in I. destruct I as [[k b] [Eh I]].
      unfold h in Eh. cbn [fst snd] in Eh. inversion Eh; subst.
      split.
      * apply groupby_sum_keys. fold g.
        apply (in_map fst) in I. exact I.
      * apply round_comp. rewrite (groupby_sum_value df s b I). reflexivity.
    + intros [I ->].
      apply groupby_sum_keys in I. fold g in I.
      apply in_map_iff in I. destruct I as [[k b] [Ek I]].
      cbn [fst] in Ek. subst k.
      apply (Permutation_in _ (Permutation_sym P)).
      apply in_map_iff. exists (s, b). split; [|exact I].
      unfold h. cbn [fst snd]. f_equal.
      apply round_comp. rewrite (groupby_sum_value df s b I). reflexivity.
Qed.

Lemma NoDup_keys (t : list (string * Q)) : NoDup (map fst t) -> NoDup t.
Proof. apply NoDup_map_inv. Qed.

(** X12.  The content of the sector and credit tables does not depend on
    the order of the rows of the frame: reordering the positions gives the
    same table rows (the order among equal allocations apart). *)
Theorem allocation_row_order (df df' : list (string * Q)) :
  Permutation df df' ->
  ~ total_portfolio_value (map snd df) == 0 ->
  exists t t' : list (string * Q),
    sector_allocation df = Some t
    /\ sector_allocation df' = Some t'
    /\ credit_allocation df = Some t
    /\ credit_allocation df' = Some t'
    /\ Permutation t t'.
Proof.
  intros P NZ.
  assert (ET : total_portfolio_value (map snd df)
               == total_portfolio_value (map snd df'))
    by (apply sum_Permutation, Permutation_map, P).
  assert (NZ' : ~ total_portfolio_value (map snd df') == 0)
    by (rewrite <- ET; exact NZ).
  destruct (sector_allocation_rows df NZ) as [t [E [ND R]]].
  destruct (sector_allocation_rows df' NZ') as [t' [E' [ND' R']]].
  exists t, t'. repeat split; try assumption.
  apply NoDup_Permutation; [apply NoDup_keys, ND | apply NoDup_keys, ND'|].
  intros [s a]. rewrite R, R'.
  assert (V : round (sector_value s df / total_portfolio_value (map snd df)) 4
              = round (sector_value s df' / total_portfolio_value (map snd df')) 4).
  { apply round_comp. rewrite ET, (sector_value_Permutation s df df' P).
    reflexivity. }
  rewrite V.
  split; intros [I A]; (split; [|exact A]).
  - apply (Permutation_in _ (Permutation_map fst P)), I.
  - apply (Permutation_in _ (Permutation_sym (Permutation_map fst P))), I.
Qed.

(** ** More on surveillance *)

Lemma Qgtb_false (x y : Q) : Qgtb x y = false <-> x <= y.
Proof.
  unfold Qgtb. rewrite negb_false_iff. apply Qle_bool_iff.
Qed.

Lemma Qltb_false (x y : Q) : Qltb x y = false <-> y <= x.
Proof. apply (Qgtb_false y x). Qed.

Lemma filter_empty_iff {A : Type} (f : A -> bool) (xs : list A) :
  filter f xs = [] <-> forall x, In x xs -> f x = false.
Proof.
  induction xs as [|x xs IH]; simpl.
  - split; [intros _ y []|reflexivity].
  - destruct (f x) eqn:E.
    + split; [discriminate|]. intros H.
      rewrite (H x (or_introl eq_refl)) in E. discriminate.
    + rewrite IH. split.
      * intros H y [<-|I]; [exact E | apply H, I].
      * intros H y I. apply H. right. exact I.
Qed.

Lemma filter_length_le {A : Type} (f : A -> bool) (xs : list A) :
  (List.length (filter f xs) <= List.length xs)%nat.
Proof.
  induction xs as [|x xs IH]; simpl; [lia|].
  destruct (f x); simpl; lia.
Qed.

Section FlagFacts.

Variable L : Limits.
Variable df : DataFrame.
Variable sector_table : list (string * Q).

Lemma check_position_weight_layout (fl : list Flag) :
  check_position_weight L df fl = fl ++ map (position_finding L) df.
Proof.
  unfold check_position_weight. apply fold_left_append.
  intros fl' p. unfold position_finding. cbv zeta.
  destruct (Qgtb _ _); reflexivity.
Qed.

Lemma check_sector_concentration_layout (fl : list Flag) :
  check_sector_concentration L sector_table fl
  = fl ++ map (sector_finding L) sector_table.
Proof.
  unfold check_sector_concentration. apply fold_left_append.
  intros fl' p. unfold sector_finding. cbv zeta.
  destruct (Qgtb _ _); reflexivity.
Qed.

Lemma check_credit_quality_layout (fl : list Flag) :
  check_credit_quality L df fl = fl ++ [credit_finding L df].
Proof.
  unfold check_credit_quality, credit_finding, append.
  destruct (Qltb _ _); reflexivity.
Qed.

Lemma check_dv01_layout (fl : list Flag) :
  check_dv01 L df fl = fl ++ map (dv01_finding L) df.
Proof.
  unfold check_dv01. apply fold_left_append.
  intros fl' p. unfold dv01_finding. cbv zeta.
  destruct (Qgtb _ _); reflexivity.
Qed.

Lemma check_min_ytm_layout (fl : list Flag) :
  check_min_ytm L df fl = fl ++ [ytm_finding L df].
Proof.
  unfold check_min_ytm, ytm_finding, append. cbv zeta.
  destruct (Qltb _ _); reflexivity.
Qed.

Lemma flags_eq :
  flags L df sector_table
  = duration_finding L df
    :: map (position_finding L) df
    ++ map (sector_finding L) sector_table
    ++ credit_finding L df
    :: map (dv01_finding L) df
    ++ [ytm_finding L df].
Proof.
  unfold flags.
  rewrite check_portfolio_duration_eq, check_position_weight_layout,
    check_sector_concentration_layout, check_credit_quality_layout,
    check_dv01_layout, check_min_ytm_layout.
  cbn [app]. rewrite <- !app_assoc. reflexivity.
Qed.

(** X13.  The findings come in a fixed order: the duration finding, one
    concentration finding per position in frame order, one finding per row
    of the sector table in table order, the credit-quality finding, one
    DV01 finding per position in frame order, and the yield finding; a
    frame of n positions and a sector table of k rows give 2n + k + 3
    findings. *)
Theorem flags_layout :
  flags L df sector_table
  = duration_finding L df
    :: map (position_finding L) df
    ++ map (sector_finding L) sector_table
    ++ credit_finding L df
    :: map (dv01_finding L) df
    ++ [ytm_finding L df]
  /\ List.length (flags L df sector_table)
     = (2 * List.length df + List.length sector_table + 3)%nat.
Proof.
  split; [exact flags_eq|].
  rewrite flags_eq. cbn [List.length].
  rewrite !length_app. cbn [List.length]. rewrite !length_app, !length_map.
  cbn [List.length]. lia.
Qed.

Lemma duration_finding_clear :
  String.eqb (status (duration_finding L df)) BREACH = false
  <-> portfolio_duration df <= max_portfolio_duration L
      /\ min_portfolio_duration L <= portfolio_duration df.
Proof.
  unfold duration_finding. cbv zeta.
  destruct (Qgtb _ _) eqn:G; [|destruct (Qltb _ _) eqn:B]; cbn [status].
  - apply Qgtb_true in G. split; [discriminate|]. intros [A _]. lra.
  - apply Qltb_true in B. split; [discriminate|]. intros [_ A]. lra.
  - apply Qgtb_false in G. apply Qltb_false in B.
    split; [intros _; split; assumption | reflexivity].
Qed.

Lemma position_finding_clear (p : Position) :
  String.eqb (status (position_finding L p)) BREACH = false
  <-> p_weight p <= max_single_position_weight L.
Proof.
  unfold position_finding. cbv zeta.
  destruct (Qgtb _ _) eqn:G; cbn [status].
  - apply Qgtb_true in G. split; [discriminate|]. intros A. lra.
  - apply Qgtb_false in G. split; [intros _; exact G | reflexivity].
Qed.

Lemma sector_finding_clear (r : string * Q) :
  String.eqb (status (sector_finding L r)) BREACH = false
  <-> snd r <= max_sector_concentration L.
Proof.
  unfold sector_finding. cbv zeta.
  destruct (Qgtb _ _) eqn:G; cbn [status].
  - apply Qgtb_true in G. split; [discriminate|]. intros A. lra.
  - apply Qgtb_false in G. split; [intros _; exact G | reflexivity].
Qed.

Lemma credit_finding_clear :
  String.eqb (status (credit_finding L df)) BREACH = false
  <-> min_credit_quality_aaa_aa L <= aaa_aa_weight df.
Proof.
  unfold credit_finding.
  destruct (Qltb _ _) eqn:G; cbn [status].
  - apply Qltb_true in G. split; [discriminate|]. intros A. lra.
  - apply Qltb_false in G. split; [intros _; exact G | reflexivity].
Qed.

Lemma dv01_finding_clear (p : Position) :
  String.eqb (status (dv01_finding L p)) BREACH = false
  <-> p_dv01 p <= max_dv01_per_position L.
Proof.
  unfold dv01_finding. cbv zeta.
  destruct (Qgtb _ _) eqn:G; cbn [status].
  - apply Qgtb_true in G. split; [discriminate|]. intros A. lra.
  - apply Qgtb_false in G. split; [intros _; exact G | reflexivity].
Qed.

Lemma ytm_finding_clear :
  String.eqb (status (ytm_finding L df)) BREACH = false
  <-> min_ytm L <= portfolio_ytm df.
Proof.
  unfold ytm_finding. cbv zeta.
  destruct (Qltb _ _) eqn:G; cbn [status].
  - apply Qltb_true in G. split; [discriminate|]. intros A. lra.
  - apply Qltb_false in G. split; [intros _; exact G | reflexivity].
Qed.

(** X14.  The report is ALL CLEAR (no breach among the findings) exactly
    when the portfolio duration is within its limits, every position
    weight, sector allocation and position DV01 is at or below its
    maximum, and the AAA+AA weight and the portfolio yield are at or above
    their floors. *)
Theorem all_clear_iff :
  all_clear L df sector_table = true
  <-> portfolio_duration df <= max_portfolio_duration L
      /\ min_portfolio_duration L <= portfolio_duration df
      /\ (forall p, In p df -> p_weight p <= max_single_position_weight L)
      /\ (forall r, In r sector_table -> snd r <= max_sector_concentration L)
      /\ min_credit_quality_aaa_aa L <= aaa_aa_weight df
      /\ (forall p, In p df -> p_dv01 p <= max_dv01_per_position L)
      /\ min_ytm L <= portfolio_ytm df.
Proof.
  assert (A : all_clear L df sector_table = true
              <-> breaches L df sector_table = []).
  { unfold all_clear. destruct (breaches L df sector_table);
      split; congruence. }
  rewrite A. unfold breaches. rewrite filter_empty_iff, flags_eq.
  split.
  - intros H.
    assert (H1 := H (duration_finding L df) (or_introl eq_refl)).
    apply duration_finding_clear in H1. destruct H1 as [H1 H1'].
    split; [exact H1|]. split; [exact H1'|].
    split; [|split; [|split; [|split]]].
    + intros p I. apply position_finding_clear. apply H.
      right. apply in_or_app. left. apply in_map, I.
    + intros r I. apply sector_finding_clear. apply H.
      right. apply in_or_app. right. apply in_or_app. left. apply in_map, I.
    + apply credit_finding_clear. apply H.
      right. apply in_or_app. right. apply in_or_app. right. left. reflexivity.
    + intros p I. apply dv01_finding_clear. apply H.
      right. apply in_or_app. right. apply in_or_app. right. right.
      apply in_or_app. left. apply in_map, I.
    + apply ytm_finding_clear. apply H.
      right. apply in_or_app. right. apply in_or_app. right. right.
      apply in_or_app. right. left. reflexivity.
  - intros [H1 [H1' [H2 [H3 [H4 [H5 H6]]]]]] f I.
    destruct I as [<-|I]; [apply duration_finding_clear; split; assumption|].
    apply in_app_or in I. destruct I as [I|I].
    { apply in_map_iff in I. destruct I as [p [<- I]].
      apply position_finding_clear, H2, I. }
    apply in_app_or in I. destruct I as [I|I].
    { apply in_map_iff in I. destruct I as [r [<- I]].
      apply sector_finding_clear, H3, I. }
    destruct I as [<-|I]; [apply credit_finding_clear, H4|].
    apply in_app_or in I. destruct I as [I|I].
    { apply in_map_iff in I. destruct I as [p [<- I]].
      apply dv01_finding_clear, H5, I. }
    destruct I as [<-|[]]. apply ytm_finding_clear, H6.
Qed.

Lemma flags_known : Forall known_status (flags L df sector_table).
Proof.
  unfold flags.
  apply check_min_ytm_known, check_dv01_known, check_credit_quality_known,
    check_sector_concentration_known, check_position_weight_known,
    check_portfolio_duration_known.
  constructor.
Qed.

(** X15.  The pass rate is always defined, because a run has at least
    three findings; it lies between 0 and 100 and is 100 exactly when the
    report is ALL CLEAR. *)
Theorem pass_rate_defined :
  exists r : Q,
    pass_rate L df sector_table = Some r
    /\ 0 <= r <= 100
    /\ (r == 100 <-> all_clear L df sector_table = true).
Proof.
  unfold pass_rate. cbv zeta.
  pose proof (partition_by_status _ flags_known) as Part.
  fold (breaches L df sector_table) in Part.
  fold (passes L df sector_table) in Part.
  assert (Len : (3 <= List.length (flags L df sector_table))%nat).
  { rewrite flags_eq. cbn [List.length].
    rewrite !length_app. cbn [List.length]. rewrite !length_app.
    cbn [List.length]. lia. }
  set (n := List.length (flags L df sector_table)) in *.
  set (k := List.length (passes L df sector_table)) in *.
  set (b := List.length (breaches L df sector_table)) in *.
  assert (Pn : 0 < inject_Z (Z.of_nat n)).
  { change 0 with (inject_Z 0). rewrite <- Zlt_Qlt. lia. }
  assert (Pk : 0 <= inject_Z (Z.of_nat k)).
  { change 0 with (inject_Z 0). rewrite <- Zle_Qle. lia. }
  assert (Kn : inject_Z (Z.of_nat k) <= inject_Z (Z.of_nat n)).
  { rewrite <- Zle_Qle. lia. }
  rewrite div_nonzero by lra. cbn [bind].
  eexists. split; [reflexivity|].
  set (x := inject_Z (Z.of_nat k)) in *. set (y := inject_Z (Z.of_nat n)) in *.
  assert (Q0 : 0 <= x / y) by (apply Qle_shift_div_l; lra).
  assert (Q1 : x / y <= 1) by (apply Qle_shift_div_r; lra).
  assert (A : all_clear L df sector_table = true <-> b = O).
  { unfold all_clear, b. destruct (breaches L df sector_table);
      cbn [List.length]; split; intros; congruence || lia. }
  assert (X : x / y == 1 <-> b = O).
  { split.
    - intros E1.
      assert (E2 : x == y).
      { setoid_replace x with (x / y * y) by (field; lra). rewrite E1. ring. }
      unfold x, y in E2. rewrite inject_Z_injective in E2. lia.
    - intros B0.
      assert (E : k = n) by lia.
      unfold x, y. rewrite E. field. fold y. lra. }
  rewrite A, <- X.
  set (q := x / y) in *.
  split; [split; lra|]. split; intros E; lra.
Qed.

End FlagFacts.

(** ** The further properties on sample holdings *)

Lemma pow_whole_0 (x : Q) : pow_whole x 0 == 1.
Proof. reflexivity. Qed.


Lemma weight_range_witness : 0 <= 7500 # 10000 <= 1.
Proof.
  apply (weight_range [750; 250] [7500 # 10000; 2500 # 10000]).
  - intros mv [<-|[<-|[]]]; discriminate.
  - reflexivity.
  - vm_compute. reflexivity.
  - left. reflexivity.
Defined.

Lemma weight_scale_invariant_witness :
  weight (map (Qmult 2) [750; 250]) = weight [750; 250].
Proof.
  apply (weight_scale_invariant 2 [750; 250]).
  intros H. discriminate H.
Defined.

Lemma weighted_between_witness :
  (9577 # 10000) * sum (map p_weight two_positions)
  <= weighted p_modified_duration two_positions
  <= (95238 # 10000) * sum (map p_weight two_positions).
Proof.
  apply (weighted_between p_modified_duration two_positions).
  - intros p [<-|[<-|[]]]; discriminate.
  - intros p [<-|[<-|[]]]; split; discriminate.
Defined.

Lemma macaulay_face_value_invariant_witness :
  macaulay_duration pow_whole (5 # 100) (1000 * 1000) (4 # 100) 3
  = macaulay_duration pow_whole (5 # 100) 1000 (4 # 100) 3.
Proof.
  apply (macaulay_face_value_invariant pow_whole 1000 (5 # 100) 1000 (4 # 100) 3).
  intros H. discriminate H.
Defined.

Lemma macaulay_duration_bounds_witness :
  exists mac : Q,
    macaulay_duration pow_whole (5 # 100) 1000 (4 # 100) 3 = Some mac
    /\ 1 <= mac <= inject_Z (Z.max 1 (round_half_even 3)).
Proof.
  apply (macaulay_duration_bounds pow_whole pow_whole_pos).
  - reflexivity.
  - discriminate.
  - reflexivity.
Defined.

Lemma modified_le_macaulay_witness :
  exists mac md : Q,
    macaulay_duration_of pow_whole zero_coupon_10y = Some mac
    /\ modified_duration_of pow_whole zero_coupon_10y = Some md
    /\ 0 <= md <= mac.
Proof.
  apply (modified_le_macaulay pow_whole pow_whole_pos zero_coupon_10y).
  - reflexivity.
  - discriminate.
  - discriminate.
Defined.



Lemma years_to_maturity_of_close_and_monotone_witness :
  (100 <= 200)%Z /\ years_to_maturity_of 100 <= years_to_maturity_of 200.
Proof.
  assert (H : (100 <= 200)%Z) by lia.
  split; [exact H|].
  exact (proj2 (years_to_maturity_of_close_and_monotone 100 200) H).
Defined.

Lemma years_to_maturity_of_zero_witness :
  (2 <= 2)%Z /\ 1 # 100 <= years_to_maturity_of 2.
Proof.
  assert (H : (2 <= 2)%Z) by lia.
  split; [exact H|].
  exact (proj1 (proj2 (years_to_maturity_of_zero 2)) H).
Defined.

Lemma allocation_row_order_witness :
  exists t t' : list (string * Q),
    sector_allocation two_sectors = Some t
    /\ sector_allocation (rev two_sectors) = Some t'
    /\ credit_allocation two_sectors = Some t
    /\ credit_allocation (rev two_sectors) = Some t'
    /\ Permutation t t'.
Proof.
  apply (allocation_row_order two_sectors (rev two_sectors)).
  - apply perm_swap.
  - intros H. discriminate H.
Defined.

Lemma all_clear_iff_witness :
  all_clear MANDATE_LIMITS compliant_frame compliant_sectors = true.
Proof.
  apply (proj2 (all_clear_iff MANDATE_LIMITS compliant_frame compliant_sectors)).
  split; [discriminate|]. split; [discriminate|].
  split; [intros p [<-|[<-|[<-|[]]]]; discriminate|].
  split; [intros r [<-|[<-|[<-|[]]]]; discriminate|].
  split; [discriminate|].
  split; [intros p [<-|[<-|[<-|[]]]]; discriminate|].
  discriminate.
Defined.

Lemma weight_undefined_iff_witness : weight [100; -100] = None.
Proof.
  apply (proj2 (weight_undefined_iff [100; -100])).
  split; [discriminate | reflexivity].
Defined.

(** ** Credit floor, concentration and bonds at maturity *)

Lemma sum_filter_le {A : Type} (f : A -> bool) (g : A -> Q) (xs : list A) :
  (forall x, In x xs -> 0 <= g x) ->
  0 <= sum (map g (filter f xs)) <= sum (map g xs).
Proof.
  induction xs as [|x xs IH]; intros H.
  - cbn [filter map]. split; discriminate.
  - assert (A0 : 0 <= g x) by (apply H; left; reflexivity).
    destruct IH as [I0 I1]; [intros z Hz; apply H; right; exact Hz|].
    cbn [filter]. destruct (f x); cbn [map]; rewrite ?sum_cons; split; lra.
Qed.

Lemma filter_none {A : Type} (f : A -> bool) (xs : list A) :
  (forall x, In x xs -> f x = false) -> filter f xs = [].
Proof. apply filter_empty_iff. Qed.

(** X16.  With non-negative weights the AAA+AA weight lies between 0 and
    the sum of all weights. *)
Theorem aaa_aa_weight_range (df : DataFrame) :
  (forall p, In p df -> 0 <= p_weight p) ->
  0 <= aaa_aa_weight df <= sum (map p_weight df).
Proof.
  intros H. unfold aaa_aa_weight. apply sum_filter_le, H.
Qed.

(** X17.  When no position is rated AAA or AA (in particular for an empty
    frame) and the floor is positive, the credit-quality check reports a
    breach. *)
Theorem credit_floor_without_top_ratings (L : Limits) (df : DataFrame)
        (sector_table : list (string * Q)) :
  (forall p, In p df ->
     isin (credit_rating (p_row p)) ["AAA"; "AA"]%string = false) ->
  0 < min_credit_quality_aaa_aa L ->
  aaa_aa_weight df = 0
  /\ status (credit_finding L df) = BREACH
  /\ all_clear L df sector_table = false.
Proof.
  intros H HL.
  assert (E : aaa_aa_weight df = 0).
  { unfold aaa_aa_weight. rewrite filter_none by exact H. reflexivity. }
  assert (B : status (credit_finding L df) = BREACH).
  { unfold credit_finding. rewrite E.
    assert (G : Qltb 0 (min_credit_quality_aaa_aa L) = true)
      by (apply Qltb_true, HL).
    rewrite G. reflexivity. }
  split; [exact E|]. split; [exact B|].
  destruct (all_clear L df sector_table) eqn:A; [|reflexivity].
  assert (A' : breaches L df sector_table = []).
  { unfold all_clear in A. destruct (breaches L df sector_table);
      [reflexivity | discriminate]. }
  unfold breaches in A'. rewrite filter_empty_iff, flags_eq in A'.
  assert (C : String.eqb (status (credit_finding L df)) BREACH = false).
  { apply A'. right. apply in_or_app. right. apply in_or_app. right.
    left. reflexivity. }
  rewrite B in C. discriminate C.
Qed.

Lemma sum_le_bound (xs : list Q) (b : Q) :
  (forall x, In x xs -> x <= b) ->
  sum xs <= inject_Z (Z.of_nat (List.length xs)) * b.
Proof.
  induction xs as [|x xs IH]; intros H.
  - cbn [List.length]. change (sum []) with 0. rewrite Qmult_0_l. apply Qle_refl.
  - rewrite sum_cons.
    change (List.length (x :: xs)) with (S (List.length xs)).
    rewrite Nat2Z.inj_succ, <- Z.add_1_r, inject_Z_plus.
    change (inject_Z 1) with 1.
    assert (A : x <= b) by (apply H; left; reflexivity).
    assert (B : sum xs <= inject_Z (Z.of_nat (List.length xs)) * b)
      by (apply IH; intros z Hz; apply H; right; exact Hz).
    set (n := inject_Z (Z.of_nat (List.length xs))) in *.
    setoid_replace ((n + 1) * b) with (n * b + b) by ring. lra.
Qed.

Lemma above_or_all_below (xs : list Q) (b : Q) :
  (exists x, In x xs /\ b < x) \/ (forall x, In x xs -> x <= b).
Proof.
  induction xs as [|x xs [[z [I Hz]]|IH]].
  - right. intros x [].
  - left. exists z. split; [right; exact I | exact Hz].
  - destruct (Qlt_le_dec b x) as [G|LE].
    + left. exists x. split; [left; reflexivity | exact G].
    + right. intros z [<-|I]; [exact LE | apply IH, I].
Qed.

Lemma weight_sum_close (market_value : list Q) :
  ~ total_portfolio_value market_value == 0 ->
  Qabs (sum (map (fun mv => round (mv / total_portfolio_value market_value) 4)
                 market_value) - 1)
  <= inject_Z (Z.of_nat (List.length market_value)) * (1 # 20000).
Proof.
  intros NZ.
  set (T := total_portfolio_value market_value) in *.
  pose proof (sum_round_error (map (fun mv => mv / T) market_value) 4) as B.
  rewrite map_map, length_map, sum_map_div in B.
  assert (E : sum market_value / T == 1)
    by (unfold T, total_portfolio_value; field; exact NZ).
  rewrite E in B. exact B.
Qed.

(** X18.  A frame with too few positions cannot pass the concentration
    check: with positive total market value and n positions, if
    n x (limit + 0.00005) < 1 then some weight exceeds the limit.  For the
    35% limit of the script this is every frame of one or two positions. *)
Theorem concentration_needs_positions (market_value w : list Q) (limit : Q) :
  0 < total_portfolio_value market_value ->
  weight market_value = Some w ->
  inject_Z (Z.of_nat (List.length market_value)) * (limit + (1 # 20000)) < 1 ->
  exists x, In x w /\ limit < x.
Proof.
  intros HT Hw Hn.
  assert (NZ : ~ total_portfolio_value market_value == 0) by lra.
  rewrite (weight_eq _ NZ) in Hw. inversion Hw as [Ew]. clear Hw.
  destruct (above_or_all_below w limit) as [Ex|All]; [rewrite Ew; exact Ex|].
  exfalso.
  pose proof (sum_le_bound w limit All) as U.
  pose proof (weight_sum_close market_value NZ) as C.
  rewrite Ew in C. apply Qabs_Qle_condition in C. destruct C as [C _].
  rewrite <- Ew, length_map in U.
  set (n := inject_Z (Z.of_nat (List.length market_value))) in *.
  setoid_replace (n * (limit + (1 # 20000)))
    with (n * limit + n * (1 # 20000)) in Hn by ring.
  rewrite Ew in U. lra.
Qed.

Lemma py_int_comp (x y : Q) : x == y -> py_int x = py_int y.
Proof.
  unfold py_int, Qeq. destruct x as [a b], y as [c d]. cbn [Qnum Qden].
  intros E.
  rewrite <- (Z.quot_mul_cancel_r a (Zpos b) (Zpos d)) by lia.
  rewrite <- (Z.quot_mul_cancel_r c (Zpos d) (Zpos b)) by lia.
  rewrite E. f_equal. lia.
Qed.

Lemma pow_whole_comp (x e e' : Q) : e == e' -> pow_whole x e == pow_whole x e'.
Proof.
  intros E. unfold pow_whole. rewrite (py_int_comp e e' E). reflexivity.
Qed.

Section MaturityFacts.

Variable pow : Q -> Q -> Q.

Hypothesis pow_0 : forall x : Q, pow x 0 == 1.
Hypothesis pow_comp : forall x e e' : Q, e == e' -> pow x e == pow x e'.

Lemma price_at_maturity (row : Row) :
  years_to_maturity row == 0 ->
  price_per_bond pow row = Some (round (face_value row) 2).
Proof.
  intros Hm.
  assert (D : pow (1 + ytm row) (years_to_maturity row) == 1)
    by (rewrite (pow_comp _ _ 0 Hm); apply pow_0).
  unfold price_per_bond. rewrite (py_int_comp _ 0 Hm).
  change (range 1 (py_int 0 + 1)) with (@nil Z). cbn [traverse bind].
  rewrite div_nonzero by (rewrite D; discriminate).
  cbn [bind]. f_equal. apply round_comp.
  change (sum []) with 0. rewrite D. field.
Qed.

(** X19.  A bond within one day of its maturity date has zero years to
    maturity and is priced at its face value (rounded to 2 decimals),
    whatever its coupon rate and yield. *)
Theorem price_within_a_day_of_maturity (row : Row) (days : Z) :
  years_to_maturity row = years_to_maturity_of days ->
  (-1 <= days <= 1)%Z ->
  price_per_bond pow row = Some (round (face_value row) 2).
Proof.
  intros Hm Hd. apply price_at_maturity. rewrite Hm.
  assert (C : days = (-1)%Z \/ days = 0%Z \/ days = 1%Z) by lia.
  destruct C as [->|[->| ->]]; reflexivity.
Qed.

End MaturityFacts.

Lemma aaa_aa_weight_range_witness :
  0 <= aaa_aa_weight two_positions <= sum (map p_weight two_positions).
Proof.
  apply (aaa_aa_weight_range two_positions).
  intros p [<-|[<-|[]]]; discriminate.
Defined.

Lemma credit_floor_without_top_ratings_witness :
  aaa_aa_weight single_a_frame = 0
  /\ status (credit_finding MANDATE_LIMITS single_a_frame) = BREACH
  /\ all_clear MANDATE_LIMITS single_a_frame [] = false.
Proof.
  apply (credit_floor_without_top_ratings MANDATE_LIMITS single_a_frame []).
  - intros p [<-|[]]. reflexivity.
  - reflexivity.
Defined.

Lemma concentration_needs_positions_witness :
  exists x, In x [7500 # 10000; 2500 # 10000] /\ 35 # 100 < x.
Proof.
  apply (concentration_needs_positions [750; 250]).
  - reflexivity.
  - vm_compute. reflexivity.
  - reflexivity.
Defined.

Lemma price_within_a_day_of_maturity_witness :
  price_per_bond pow_whole matures_tomorrow
  = Some (round (face_value matures_tomorrow) 2).
Proof.
  apply (price_within_a_day_of_maturity pow_whole pow_whole_0 pow_whole_comp
           matures_tomorrow 1).
  - reflexivity.
  - lia.
Defined.
